(** * httpcore/_backends/sync.py: the blocking socket backend

    A shallow embedding of [SyncSocketStream] and [SyncBackend] together
    with a model of the platform they call into (sockets, [select], TLS
    wrapping, [threading.Lock]), and the properties of the transport layer
    stated over that embedding.

    Layout: exception classes, the platform state and its calls, programs
    over these calls and their runs, the two context managers, the code of
    [sync.py], threads, the vocabulary of the properties, then the
    lemmas. *)

From Stdlib Require Import ZArith Strings.Byte Strings.Ascii Floats.PrimFloat.
From stdpp Require Import gmap strings list.

Open Scope Z_scope.

(** ** Exception classes *)

(** The classes Python and its standard library raise here.  [OSError] is
    the class Python names [socket.error]; [socket_timeout], [gaierror] and
    [SSLError] derive from it. *)
Inductive builtin_class : Type :=
  | Exception
  | OSError
  | socket_timeout
  | gaierror
  | SSLError
  | ValueError
  | UnicodeDecodeError
  | OverflowError.

(** Modelled from the spec: the seven error kinds, classes of
    [httpcore/_exceptions.py] that [sync.py] imports and that are not among
    the sources.  The spec names them; they are this layer's own classes,
    outside the platform's [OSError] family. *)
Inductive kind : Type :=
  | ConnectError
  | ConnectTimeout
  | ReadError
  | ReadTimeout
  | WriteError
  | WriteTimeout
  | CloseError.

Inductive exc_type : Type :=
  | Builtin (c : builtin_class)
  | Kind (k : kind).
Coercion Builtin : builtin_class >-> exc_type.
Coercion Kind : kind >-> exc_type.

#[global] Instance builtin_class_eq_dec : EqDecision builtin_class.
Proof. solve_decision. Defined.
#[global] Instance kind_eq_dec : EqDecision kind.
Proof. solve_decision. Defined.
#[global] Instance exc_type_eq_dec : EqDecision exc_type.
Proof. solve_decision. Defined.

(** The base class of each class ([None] for the root). *)
Definition base (c : exc_type) : option exc_type :=
  match c with
  | Builtin Exception => None
  | Builtin (socket_timeout | gaierror | SSLError) => Some (Builtin OSError)
  | Builtin UnicodeDecodeError => Some (Builtin ValueError)
  | Builtin (OSError | ValueError | OverflowError) => Some (Builtin Exception)
  | Kind _ => Some (Builtin Exception)
  end.

(** The method resolution order: the class, then its ancestors.  The
    hierarchy above is three levels deep. *)
Definition mro (c : exc_type) : list exc_type :=
  c :: match base c with
       | None => []
       | Some p =>
           p :: match base p with
                | None => []
                | Some g => g :: match base g with
                                 | None => []
                                 | Some r => [r]
                                 end
                end
       end.

Definition issubclass (c parent : exc_type) : bool :=
  bool_decide (parent ∈ mro c).

(** An exception instance: raised by the platform with an [errno]-like
    code, or built by this layer around the exception it replaces
    ([to_exc(exc)]). *)
Inductive exception : Type :=
  | Raised (cls : builtin_class) (code : Z)
  | Mapped (cls : exc_type) (cause : exception).

Definition type_of (e : exception) : exc_type :=
  match e with
  | Raised c _ => c
  | Mapped c _ => c
  end.

Definition isinstance (e : exception) (c : exc_type) : bool :=
  issubclass (type_of e) c.

(** The seven semantic kinds of the layer. *)
Definition semantic_kinds : list exc_type :=
  [Kind ConnectError; Kind ConnectTimeout; Kind ReadError; Kind ReadTimeout;
   Kind WriteError; Kind WriteTimeout; Kind CloseError].

Definition EBADF : Z := 9.
Definition ECONNRESET : Z := 104.

(** ** Platform state *)

Definition bytes : Type := list byte.

(** One connection handle. [sock_timeout = None] is blocking mode, [peer]
    the address it is connected to, [tls] the context and server name of a
    completed handshake.  [inbox] holds the bytes that have arrived and
    were not yet received, [eof] says that the peer has closed its end,
    [outbox] holds the bytes the transport has accepted, oldest first. *)
Record socket_state : Type := mk_socket {
  closed : bool;
  sock_timeout : option float;
  peer : option (string * Z);
  tls : option (nat * string);
  inbox : bytes;
  eof : bool;
  outbox : bytes
}.

(** A failure the platform reports: the class it raises and a code. *)
Definition fault : Type := builtin_class * Z.

Definition exception_of (f : fault) : exception := Raised f.1 f.2.

(** What the network does next, per kind of call; the head of each list
    answers the next call of that kind, an empty list is the uneventful
    answer. *)
Record network : Type := mk_network {
  on_socket : list (option fault);
  on_connect : list (option fault);
  on_handshake : list (option fault);
  on_recv : list (fault + bytes);
  on_send : list (fault + nat);
  on_close : list (option fault)
}.

(** Calls that leave this file, in program order.  A call that can block
    records the timeout of its handle at the time of the call, which is the
    deadline that bounds it. *)
Inductive event : Type :=
  | EvAcquire (l : nat)
  | EvRelease (l : nat)
  | EvSocket
  | EvSetTimeout (fd : nat) (t : option float)
  | EvConnect (fd : nat) (host : string) (port : Z) (under : option float)
  | EvWrap (fd : nat) (ctx : nat) (server_hostname : string)
           (under : option float)
  | EvRecv (fd : nat) (n : Z) (under : option float)
  | EvSend (fd : nat) (data : bytes) (under : option float)
  | EvClose (fd : nat)
  | EvSelect (fd : nat).

(** The world: handles by descriptor, locks by identity ([true] is held),
    the network's script and the log of calls. *)
Record world : Type := mk_world {
  sockets : list socket_state;
  locks : list bool;
  net : network;
  log : list event
}.

Definition set_sockets (w : world) (s : list socket_state) : world :=
  mk_world s (locks w) (net w) (log w).
Definition set_locks (w : world) (l : list bool) : world :=
  mk_world (sockets w) l (net w) (log w).
Definition set_net (w : world) (n : network) : world :=
  mk_world (sockets w) (locks w) n (log w).
Definition emit (ev : event) (w : world) : world :=
  mk_world (sockets w) (locks w) (net w) (log w ++ [ev]).

(** ** Platform transitions *)

(** How a call ends: it returns, raises, waits for a lock that is held, or
    is still looping when the fuel of the model runs out.  A platform call
    is one atomic transition of the world. *)
Inductive outcome (A : Type) : Type :=
  | Return (a : A)
  | Raise (e : exception)
  | Blocked
  | OutOfFuel.
Arguments Return {A} a.
Arguments Raise {A} e.
Arguments Blocked {A}.
Arguments OutOfFuel {A}.

Definition M (A : Type) : Type := world → outcome A * world.

Definition ret {A} (a : A) : M A := λ w, (Return a, w).
Definition raise {A} (e : exception) : M A := λ w, (Raise e, w).

Definition bind {A B} (m : M A) (k : A → M B) : M B :=
  λ w, match m w with
       | (Return a, w') => k a w'
       | (Raise e, w') => (Raise e, w')
       | (Blocked, w') => (Blocked, w')
       | (OutOfFuel, w') => (OutOfFuel, w')
       end.

Declare Scope platform_scope.
Notation "'let*' x ':=' m 'in' k" := (bind m (λ x, k))
  (at level 10, x name, m at level 100, k at level 200) : platform_scope.
Notation "m ';;' k" := (bind m (λ _, k))
  (at level 100, k at level 200, right associativity) : platform_scope.
Open Scope platform_scope.

Definition tell (ev : event) : M unit := λ w, (Return tt, emit ev w).

Definition get_world : M world := λ w, (Return w, w).
Definition put_sockets (s : list socket_state) : M unit :=
  λ w, (Return tt, set_sockets w s).

(** The handle behind a descriptor. A descriptor that names no handle does
    not occur in a world built by the calls below; it is read as a closed
    handle. *)
Definition handle (socks : list socket_state) (fd : nat) : socket_state :=
  default (mk_socket true None None None [] false []) (socks !! fd).

Definition update_handle (fd : nat) (f : socket_state → socket_state)
  : M unit :=
  λ w, (Return tt,
        set_sockets w (<[fd := f (handle (sockets w) fd)]> (sockets w))).

(** The next answer of the network for one kind of call. *)
Definition next {A} (l : list A) : option A * list A :=
  match l with
  | [] => (None, [])
  | a :: l' => (Some a, l')
  end.

Definition ask_socket : M (option fault) := λ w,
  let n := net w in
  let '(a, rest) := next (on_socket n) in
  (Return (a ≫= id),
   set_net w (mk_network rest (on_connect n) (on_handshake n) (on_recv n)
                         (on_send n) (on_close n))).

Definition ask_connect : M (option fault) := λ w,
  let n := net w in
  let '(a, rest) := next (on_connect n) in
  (Return (a ≫= id),
   set_net w (mk_network (on_socket n) rest (on_handshake n) (on_recv n)
                         (on_send n) (on_close n))).

Definition ask_handshake : M (option fault) := λ w,
  let n := net w in
  let '(a, rest) := next (on_handshake n) in
  (Return (a ≫= id),
   set_net w (mk_network (on_socket n) (on_connect n) rest (on_recv n)
                         (on_send n) (on_close n))).

Definition ask_recv : M (option (fault + bytes)) := λ w,
  let n := net w in
  let '(a, rest) := next (on_recv n) in
  (Return a,
   set_net w (mk_network (on_socket n) (on_connect n) (on_handshake n) rest
                         (on_send n) (on_close n))).

Definition ask_send : M (option (fault + nat)) := λ w,
  let n := net w in
  let '(a, rest) := next (on_send n) in
  (Return a,
   set_net w (mk_network (on_socket n) (on_connect n) (on_handshake n)
                         (on_recv n) rest (on_close n))).

Definition ask_close : M (option fault) := λ w,
  let n := net w in
  let '(a, rest) := next (on_close n) in
  (Return (a ≫= id),
   set_net w (mk_network (on_socket n) (on_connect n) (on_handshake n)
                         (on_recv n) (on_send n) rest)).

(** ** Platform calls *)

(** The methods of a Python socket object, on descriptors.  Every call is
    logged when it is made.  A closed handle answers [OSError(EBADF)]. *)
Module socket.

Definition timeout : exc_type := socket_timeout.
Definition error : exc_type := OSError.

Definition fresh : socket_state := mk_socket false None None None [] false [].

(** [socket.socket(AF_INET, SOCK_STREAM)]: a new handle in blocking mode,
    unless the platform refuses (descriptor table full, ...). *)
Definition socket : M nat :=
  tell EvSocket;;
  let* answer := ask_socket in
  match answer with
  | Some f => raise (exception_of f)
  | None =>
      let* w := get_world in
      put_sockets (sockets w ++ [fresh]);;
      ret (length (sockets w))
  end.

(** A timeout [settimeout] accepts: [None], or a number that is not
    negative (a NaN is not). *)
Definition valid_timeout (t : option float) : bool :=
  match t with
  | Some x => PrimFloat.leb 0%float x
  | None => true
  end.

Definition with_timeout (t : option float) (s : socket_state) : socket_state :=
  mk_socket (closed s) t (peer s) (tls s) (inbox s) (eof s) (outbox s).

(** [sock.settimeout(t)]: a value that is not valid is refused with
    [ValueError] before the handle is touched. *)
Definition settimeout (fd : nat) (t : option float) : M unit :=
  let* w := get_world in
  let s := handle (sockets w) fd in
  tell (EvSetTimeout fd t);;
  if negb (valid_timeout t) then raise (Raised ValueError 0)
  else if closed s then raise (Raised OSError EBADF)
  else update_handle fd (with_timeout t).

Definition with_peer (host : string) (port : Z) (s : socket_state)
  : socket_state :=
  mk_socket (closed s) (sock_timeout s) (Some (host, port)) (tls s)
            (inbox s) (eof s) (outbox s).

(** [sock.connect((host, port))]: the port is checked first
    ([OverflowError] outside 0..65535); name resolution and connection
    failures are the network's. *)
Definition connect (fd : nat) (host : string) (port : Z) : M unit :=
  let* w := get_world in
  let s := handle (sockets w) fd in
  tell (EvConnect fd host port (sock_timeout s));;
  if (port <? 0) || (65535 <? port) then raise (Raised OverflowError 0)
  else if closed s then raise (Raised OSError EBADF)
  else
    let* answer := ask_connect in
    match answer with
    | Some f => raise (exception_of f)
    | None => update_handle fd (with_peer host port)
    end.

Definition with_inbox (bs : bytes) (s : socket_state) : socket_state :=
  mk_socket (closed s) (sock_timeout s) (peer s) (tls s) bs (eof s)
            (outbox s).

(** Hand [bs] to a [recv(n)]: the first [n] bytes are returned, the rest
    stays in the inbox. *)
Definition deliver (fd : nat) (n : Z) (bs : bytes) : M bytes :=
  update_handle fd (with_inbox (drop (Z.to_nat n) bs));;
  ret (take (Z.to_nat n) bs).

(** [sock.recv(n)]: pending bytes are returned at once; otherwise the
    network decides what arrives (nothing more is the peer's orderly
    close, the empty byte string). *)
Definition recv (fd : nat) (n : Z) : M bytes :=
  let* w := get_world in
  let s := handle (sockets w) fd in
  tell (EvRecv fd n (sock_timeout s));;
  if n <? 0 then raise (Raised ValueError 0)
  else if closed s then raise (Raised OSError EBADF)
  else match inbox s with
       | _ :: _ => deliver fd n (inbox s)
       | [] =>
           if eof s then ret []
           else
             let* answer := ask_recv in
             match answer with
             | Some (inl f) => raise (exception_of f)
             | Some (inr bs) => deliver fd n bs
             | None => ret []
             end
       end.

Definition with_sent (bs : bytes) (s : socket_state) : socket_state :=
  mk_socket (closed s) (sock_timeout s) (peer s) (tls s) (inbox s) (eof s)
            (outbox s ++ bs).

(** [sock.send(data)]: the transport accepts a prefix of [data] and the
    call returns its length; with no answer scripted it accepts all. *)
Definition send (fd : nat) (data : bytes) : M nat :=
  let* w := get_world in
  let s := handle (sockets w) fd in
  tell (EvSend fd data (sock_timeout s));;
  if closed s then raise (Raised OSError EBADF)
  else
    let* answer := ask_send in
    match answer with
    | Some (inl f) => raise (exception_of f)
    | Some (inr k) =>
        update_handle fd (with_sent (take k data));;
        ret (length (take k data))
    | None =>
        update_handle fd (with_sent data);;
        ret (length data)
    end.

Definition mark_closed (s : socket_state) : socket_state :=
  mk_socket true (sock_timeout s) (peer s) (tls s) (inbox s) (eof s)
            (outbox s).

(** [sock.close()]: nothing to do on a closed handle; otherwise the
    handle is released, also when the platform reports an error. *)
Definition close (fd : nat) : M unit :=
  let* w := get_world in
  let s := handle (sockets w) fd in
  tell (EvClose fd);;
  if closed s then ret tt
  else
    update_handle fd mark_closed;;
    let* answer := ask_close in
    match answer with
    | Some f => raise (exception_of f)
    | None => ret tt
    end.

End socket.

Module select.

(** A handle is readable when bytes are pending or the peer has closed
    its end. *)
Definition readable (s : socket_state) : bool :=
  match inbox s with
  | [] => eof s
  | _ :: _ => true
  end.

(** [select.select([sock], [], [], 0)], the read-ready list: a poll that
    consumes nothing.  A closed handle has descriptor -1, which [select]
    refuses with [ValueError]. *)
Definition select (fd : nat) : M (list nat) :=
  let* w := get_world in
  let s := handle (sockets w) fd in
  tell (EvSelect fd);;
  if closed s then raise (Raised ValueError (-1))
  else ret (if readable s then [fd] else []).

End select.

Module ssl.

(** An [SSLContext] is opaque to this layer. *)
Definition SSLContext : Type := nat.

Definition with_tls (ctx : SSLContext) (server_hostname : string)
  (s : socket_state) : socket_state :=
  mk_socket (closed s) (sock_timeout s) (peer s)
            (Some (ctx, server_hostname)) (inbox s) (eof s) (outbox s).

(** [ctx.wrap_socket(sock, server_hostname=h)]: the handshake runs on the
    given handle under the timeout the handle already has.  The wrapped
    socket takes the descriptor over, so the model returns the same
    descriptor.  A failed handshake closes the handle before it raises. *)
Definition wrap_socket (ctx : SSLContext) (fd : nat) (server_hostname : string)
  : M nat :=
  let* w := get_world in
  let s := handle (sockets w) fd in
  tell (EvWrap fd ctx server_hostname (sock_timeout s));;
  if closed s then raise (Raised OSError EBADF)
  else
    let* answer := ask_handshake in
    match answer with
    | Some f => update_handle fd socket.mark_closed;; raise (exception_of f)
    | None => update_handle fd (with_tls ctx server_hostname);; ret fd
    end.

End ssl.

Module threading.

(** [threading.Lock()]: a new lock, not held. *)
Definition Lock : M nat := λ w,
  (Return (length (locks w)), set_locks w (locks w ++ [false])).

(** [lock.acquire()]: takes a free lock; a held lock makes the caller
    wait (an identity that names no lock does not occur and is read as
    held). *)
Definition acquire (l : nat) : M unit :=
  tell (EvAcquire l);;
  λ w, match locks w !! l with
       | Some false => (Return tt, set_locks w (<[l := true]> (locks w)))
       | _ => (Blocked, w)
       end.

Definition release (l : nat) : M unit :=
  tell (EvRelease l);;
  λ w, (Return tt, set_locks w (<[l := false]> (locks w))).

End threading.

Close Scope platform_scope.

(** ** Programs *)

(** The code of this layer: a tree of platform calls.  [Call c k h] makes
    the call [c] and goes on with [k] when it returns and with [h] when it
    raises.  [Spin] is a loop the model follows no further. *)
Inductive prog (A : Type) : Type :=
  | Ret (a : A)
  | Throw (e : exception)
  | Spin
  | Call {X : Type} (c : M X) (k : X → prog A) (h : exception → prog A).
Arguments Ret {A} a.
Arguments Throw {A} e.
Arguments Spin {A}.
Arguments Call {A X} c k h.

(** A platform call whose exceptions propagate. *)
Definition call {X} (c : M X) : prog X := Call c Ret Throw.

Fixpoint and_then {A B} (p : prog A) (f : A → prog B) : prog B :=
  match p with
  | Ret a => f a
  | Throw e => Throw e
  | Spin => Spin
  | Call c k h => Call c (λ x, and_then (k x) f) (λ e, and_then (h e) f)
  end.

Declare Scope prog_scope.
Notation "'let*' x ':=' p 'in' k" := (and_then p (λ x, k))
  (at level 10, x name, p at level 100, k at level 200) : prog_scope.
Notation "p ';;' k" := (and_then p (λ _, k))
  (at level 100, k at level 200, right associativity) : prog_scope.
Open Scope prog_scope.

(** The run of a program from a world, all at once. *)
Fixpoint run {A} (p : prog A) (w : world) : outcome A * world :=
  match p with
  | Ret a => (Return a, w)
  | Throw e => (Raise e, w)
  | Spin => (OutOfFuel, w)
  | Call c k h =>
      match c w with
      | (Return x, w') => run (k x) w'
      | (Raise e, w') => run (h e) w'
      | (Blocked, w') => (Blocked, w')
      | (OutOfFuel, w') => (OutOfFuel, w')
      end
  end.

(** ** Context managers and built-ins *)

(** [try: body finally: cleanup()] *)
Fixpoint finally {A} (body : prog A) (cleanup : M unit) : prog A :=
  match body with
  | Ret a => Call cleanup (λ _, Ret a) Throw
  | Throw e => Call cleanup (λ _, Throw e) Throw
  | Spin => Spin
  | Call c k h =>
      Call c (λ x, finally (k x) cleanup) (λ e, finally (h e) cleanup)
  end.

(** [with lock: body]: the lock is acquired, the body runs, and the lock is
    released when the body exits, by return or by exception.  A body that
    never exits never releases. *)
Definition with_lock {A} (l : nat) (body : prog A) : prog A :=
  call (threading.acquire l);;
  finally body (threading.release l).

(** The exception that replaces [e] under [exc_map]: the first entry, in
    the order of the dict literal, whose key [e] is an instance of; [e]
    itself when there is none. *)
Fixpoint translate (exc_map : list (exc_type * exc_type)) (e : exception)
  : exception :=
  match exc_map with
  | [] => e
  | (from_exc, to_exc) :: rest =>
      if isinstance e from_exc then Mapped to_exc e else translate rest e
  end.

(** Modelled from the spec: [map_exceptions] of [httpcore/_exceptions.py],
    which is imported by [sync.py] and is not among the sources.  The spec
    describes a scoped translation boundary around a call site: a low-level
    failure is caught, remapped and raised again as the kind the mapping
    gives for it.  The mapping is the dict the caller passes; an exception
    that is an instance of none of its keys is raised again unchanged. *)
Fixpoint map_exceptions {A} (exc_map : list (exc_type * exc_type))
  (body : prog A) : prog A :=
  match body with
  | Ret a => Ret a
  | Throw e => Throw (translate exc_map e)
  | Spin => Spin
  | Call c k h =>
      Call c (λ x, map_exceptions exc_map (k x))
             (λ e, map_exceptions exc_map (h e))
  end.

(** [b.decode("ascii")] as a pure function: [None] when a byte is outside
    the ASCII range. *)
Fixpoint decode_ascii (b : bytes) : option string :=
  match b with
  | [] => Some EmptyString
  | c :: rest =>
      if (Byte.to_N c <? 128)%N
      then String (ascii_of_byte c) <$> decode_ascii rest
      else None
  end.

Definition decode (b : bytes) : prog string :=
  match decode_ascii b with
  | Some s => Ret s
  | None => Throw (Raised UnicodeDecodeError 0)
  end.

(** [d.get(key)] on a [Dict[str, Optional[float]]]: a missing key and a
    null value both give [None]. *)
Definition dict_get (d : gmap string (option float)) (key : string)
  : option float :=
  d !! key ≫= id.

(** [bool(l)] on a list. *)
Definition bool_of_list {A} (l : list A) : bool :=
  match l with [] => false | _ :: _ => true end.

(** ** sync.py *)

Record SyncSocketStream : Type := mk_stream {
  sock : nat;
  read_lock : nat;
  write_lock : nat
}.

(** [SyncSocketStream.__init__] *)
Definition __init__ (sock : nat) : prog SyncSocketStream :=
  let* read_lock := call threading.Lock in
  let* write_lock := call threading.Lock in
  Ret (mk_stream sock read_lock write_lock).

(** [SyncSocketStream.read] *)
Definition read (self : SyncSocketStream) (n : Z)
  (timeout : gmap string (option float)) : prog bytes :=
  let read_timeout := dict_get timeout "read" in
  let exc_map :=
    [(socket.timeout, Kind ReadTimeout); (socket.error, Kind ReadError)] in
  with_lock (read_lock self)
    (map_exceptions exc_map
       (call (socket.settimeout (sock self) read_timeout);;
        call (socket.recv (sock self) n))).

(** The [while data:] loop of [write]; [fuel] bounds the number of
    iterations the model follows. *)
Fixpoint send_loop (fuel : nat) (sock : nat) (write_timeout : option float)
  (data : bytes) : prog unit :=
  match data with
  | [] => Ret tt
  | _ :: _ =>
      match fuel with
      | O => Spin
      | S fuel' =>
          call (socket.settimeout sock write_timeout);;
          let* n := call (socket.send sock data) in
          send_loop fuel' sock write_timeout (drop n data)
      end
  end.

(** [SyncSocketStream.write] *)
Definition write (fuel : nat) (self : SyncSocketStream) (data : bytes)
  (timeout : gmap string (option float)) : prog unit :=
  let write_timeout := dict_get timeout "write" in
  let exc_map :=
    [(socket.timeout, Kind WriteTimeout); (socket.error, Kind WriteError)] in
  with_lock (write_lock self)
    (map_exceptions exc_map
       (send_loop fuel (sock self) write_timeout data)).

(** [SyncSocketStream.close] *)
Definition close (self : SyncSocketStream) : prog unit :=
  with_lock (write_lock self)
    (map_exceptions [(socket.error, Kind CloseError)]
       (call (socket.close (sock self)))).

(** [SyncSocketStream.is_connection_dropped] *)
Definition is_connection_dropped (self : SyncSocketStream) : prog bool :=
  let* rready := call (select.select (sock self)) in
  Ret (bool_of_list rready).

(** [SyncBackend.open_tcp_stream] *)
Definition open_tcp_stream (hostname : bytes) (port : Z)
  (ssl_context : option ssl.SSLContext)
  (timeout : gmap string (option float)) : prog SyncSocketStream :=
  let connect_timeout := dict_get timeout "connect" in
  let exc_map :=
    [(socket.timeout, Kind ConnectTimeout);
     (socket.error, Kind ConnectError)] in
  map_exceptions exc_map
    (let* sock := call socket.socket in
     call (socket.settimeout sock connect_timeout);;
     let* host := decode hostname in
     call (socket.connect sock host port);;
     let* sock :=
       match ssl_context with
       | Some ctx =>
           let* server_hostname := decode hostname in
           call (ssl.wrap_socket ctx sock server_hostname)
       | None => Ret sock
       end in
     __init__ sock).

(** ** Threads *)

(** A thread is a program under way; its result is of no interest to the
    others. *)
Inductive thread : Type :=
  | Thread {A : Type} (p : prog A).

(** The next platform call of a thread, made in world [w]: the thread
    after it and the world it leaves.  A thread whose call has to wait, or
    that has finished, does not advance. *)
Definition advance (t : thread) (w : world) : option (thread * world) :=
  match t with
  | Thread p =>
      match p with
      | Call c k h =>
          match c w with
          | (Return x, w') => Some (Thread (k x), w')
          | (Raise e, w') => Some (Thread (h e), w')
          | _ => None
          end
      | _ => None
      end
  end.

(** One step of a pool of threads sharing the world: some thread
    advances. *)
Inductive step : world * list thread → world * list thread → Prop :=
  | step_thread i t t' w w' ts :
      ts !! i = Some t →
      advance t w = Some (t', w') →
      step (w, ts) (w', <[i := t']> ts).

(** Any interleaving of the threads. *)
Inductive steps : world * list thread → world * list thread → Prop :=
  | steps_refl s : steps s s
  | steps_step s1 s2 s3 : steps s1 s2 → step s2 s3 → steps s1 s3.

(** ** Running the code *)

Definition empty_network : network := mk_network [] [] [] [] [] [].
Definition empty_world : world := mk_world [] [] empty_network [].

(** ** Vocabulary of the properties *)

(** Whether a call came back to its caller. *)
Definition exited {A} (r : outcome A) : bool :=
  match r with
  | Return _ | Raise _ => true
  | Blocked | OutOfFuel => false
  end.

(** An outcome that is not one of this layer's own exceptions. *)
Definition raw {A} (r : outcome A) : Prop :=
  match r with
  | Raise (Mapped _ _) => False
  | _ => True
  end.

(** What [map_exceptions] makes of the outcome of its body. *)
Definition remap {A} (exc_map : list (exc_type * exc_type)) (r : outcome A)
  : outcome A :=
  match r with
  | Raise e => Raise (translate exc_map e)
  | other => other
  end.

(** The world once [l] was acquired, and once it was released. *)
Definition locked (l : nat) (w : world) : world :=
  set_locks (emit (EvAcquire l) w) (<[l := true]> (locks w)).

Definition unlocked (l : nat) (w : world) : world :=
  set_locks (emit (EvRelease l) w) (<[l := false]> (locks w)).

(** The platform calls of a [write] whose sends accepted [chunks] in turn:
    before each send the timeout is set, and each send is given what the
    earlier ones left. *)
Fixpoint send_calls (fd : nat) (t : option float) (chunks : list bytes)
  : list event :=
  match chunks with
  | [] => []
  | c :: rest =>
      EvSetTimeout fd t :: EvSend fd (concat (c :: rest)) t
        :: send_calls fd t rest
  end.

(** The platform calls of any run of the send loop, finished or not. *)
Inductive send_trace (fd : nat) (t : option float) : list event → Prop :=
  | send_trace_nil : send_trace fd t []
  | send_trace_refused : send_trace fd t [EvSetTimeout fd t]
  | send_trace_chunk d tr :
      send_trace fd t tr →
      send_trace fd t (EvSetTimeout fd t :: EvSend fd d t :: tr).

(** An answer to [send] that accepts at least one byte, or fails. *)
Definition makes_progress (a : fault + nat) : Prop :=
  match a with
  | inr O => False
  | _ => True
  end.

(** [e] is what a phase with the given timeout kind and error kind lets
    out: a transport failure ([socket.error]) wrapped in the timeout kind
    when it is a [socket.timeout] and in the error kind otherwise, or an
    exception that is no transport failure, as it was raised. *)
Definition surfaced (timeout_kind error_kind : kind) (e : exception) : Prop :=
  match e with
  | Mapped k cause =>
      isinstance cause socket.error = true ∧
      k = Kind (if isinstance cause socket.timeout then timeout_kind
                else error_kind)
  | Raised c _ => issubclass c socket.error = false
  end.

(** A call on handle [fd] that goes to the transport. *)
Definition transport_event (fd : nat) (ev : event) : Prop :=
  match ev with
  | EvSetTimeout fd' _ | EvRecv fd' _ _ | EvSend fd' _ _ | EvClose fd' =>
      fd' = fd
  | _ => False
  end.

(** A method that does its work under lock [l]: with [l] free it acquires
    [l], makes only transport calls on [fd], and releases [l] when it
    exits, leaving every lock as it was; with [l] held it waits and has
    touched nothing. *)
Definition locked_call {A} (l fd : nat) (p : prog A) : Prop :=
  ∀ w r w', run p w = (r, w') →
    match locks w !! l with
    | Some false =>
        r ≠ Blocked ∧
        (∃ tr, Forall (transport_event fd) tr ∧
               log w' = log w ++ EvAcquire l :: tr ++
                          (if exited r then [EvRelease l] else [])) ∧
        locks w' = (if exited r then locks w else <[l := true]> (locks w))
    | _ =>
        r = Blocked ∧ w' = emit (EvAcquire l) w
    end.






(** A platform call that touches no lock and never waits. *)
Definition lock_neutral {X} (c : M X) : Prop :=
  ∀ w r w', c w = (r, w') → locks w' = locks w ∧ exited r = true.

(** A program that makes only such calls. *)
Inductive transport_only {A} : prog A → Prop :=
  | transport_ret a : transport_only (Ret a)
  | transport_throw e : transport_only (Throw e)
  | transport_spin : transport_only Spin
  | transport_call X (c : M X) k h :
      lock_neutral c →
      (∀ x, transport_only (k x)) →
      (∀ e, transport_only (h e)) →
      transport_only (Call c k h).

(** Where a thread that runs a method of a stream is: before its
    [with lock:] block, inside it, or past it. *)
Inductive mode : Type :=
  | Waiting (l : nat)
  | Inside (l : nat)
  | Over.

Inductive at_mode : mode → thread → Prop :=
  | at_waiting l A (body : prog A) :
      transport_only body →
      at_mode (Waiting l) (Thread (with_lock l body))
  | at_inside l A (body : prog A) :
      transport_only body →
      at_mode (Inside l) (Thread (finally body (threading.release l)))
  | at_over_ret A (a : A) : at_mode Over (Thread (Ret a))
  | at_over_throw A e : at_mode Over (Thread (@Throw A e)).

(** The threads of a pool exclude each other: each is at some mode, a
    thread inside the block of a lock finds that lock held, and no two
    threads are inside the block of the same lock. *)
Definition exclusive (w : world) (ts : list thread) : Prop :=
  ∃ modes,
    Forall2 at_mode modes ts ∧
    (∀ i l, modes !! i = Some (Inside l) → locks w !! l = Some true) ∧
    (∀ i j l,
       modes !! i = Some (Inside l) → modes !! j = Some (Inside l) → i = j).

(** A thread that is about to run one of the locked methods of [self]. *)
Inductive method_call (self : SyncSocketStream) : thread → Prop :=
  | call_read n timeout : method_call self (Thread (read self n timeout))
  | call_write fuel data timeout :
      method_call self (Thread (write fuel self data timeout))
  | call_close : method_call self (Thread (close self)).

(** ** Sample worlds *)

Definition demo_stream : SyncSocketStream := mk_stream 0 0 1.

Definition demo_socket : socket_state :=
  socket.with_peer "127.0.0.1" 80 socket.fresh.

Definition demo_timeout : gmap string (option float) :=
  <["connect" := Some 1%float]>
    (<["write" := Some 2%float]> (<["read" := None]> ∅)).

(** An open stream whose transport accepts one byte, then none, then the
    rest. *)
Definition demo_world : world :=
  mk_world [demo_socket] [false; false]
    (mk_network [] [] [] [] [inr 1%nat; inr 0%nat; inr 5%nat] []) [].

(** The same stream after [close]. *)
Definition demo_closed_world : world :=
  mk_world [socket.mark_closed demo_socket] [false; false] empty_network [].

(** The same stream while a reader holds the read lock and three bytes are
    pending. *)
Definition demo_busy_world : world :=
  mk_world [socket.with_inbox [x68; x69; x0a] demo_socket] [true; false]
    empty_network [EvAcquire 0].



(** The fault the network has ready for the next [socket()] call. *)
Definition socket_refusal (w : world) : option fault :=
  (next (on_socket (net w))).1 ≫= id.

(** How the body of [open_tcp_stream] can run from [w], with [t] the
    connect deadline and [fd] the descriptor of the handle it creates: the
    outcome before [map_exceptions] and the world it leaves. *)
Inductive opened (hostname : bytes) (port : Z)
  (ssl_context : option ssl.SSLContext) (t : option float) (w : world)
  : outcome SyncSocketStream → world → Prop :=
  | open_socket_refused f w' :
      socket_refusal w = Some f →
      log w' = log w ++ [EvSocket] →
      sockets w' = sockets w →
      locks w' = locks w →
      opened hostname port ssl_context t w (Raise (exception_of f)) w'
  | open_deadline_refused w' :
      socket_refusal w = None →
      socket.valid_timeout t = false →
      log w' = log w ++ [EvSocket; EvSetTimeout (length (sockets w)) t] →
      sockets w' = sockets w ++ [socket.fresh] →
      locks w' = locks w →
      opened hostname port ssl_context t w (Raise (Raised ValueError 0)) w'
  | open_host_not_ascii w' :
      socket_refusal w = None →
      socket.valid_timeout t = true →
      decode_ascii hostname = None →
      log w' = log w ++ [EvSocket; EvSetTimeout (length (sockets w)) t] →
      sockets w' = sockets w ++ [socket.with_timeout t socket.fresh] →
      locks w' = locks w →
      opened hostname port ssl_context t w
        (Raise (Raised UnicodeDecodeError 0)) w'
  | open_connect_failed host c z w' :
      socket_refusal w = None →
      socket.valid_timeout t = true →
      decode_ascii hostname = Some host →
      log w' = log w ++ [EvSocket; EvSetTimeout (length (sockets w)) t;
                         EvConnect (length (sockets w)) host port t] →
      sockets w' = sockets w ++ [socket.with_timeout t socket.fresh] →
      locks w' = locks w →
      opened hostname port ssl_context t w (Raise (Raised c z)) w'
  | open_handshake_failed host ctx f w' :
      socket_refusal w = None →
      socket.valid_timeout t = true →
      decode_ascii hostname = Some host →
      ssl_context = Some ctx →
      log w' = log w ++ [EvSocket; EvSetTimeout (length (sockets w)) t;
                         EvConnect (length (sockets w)) host port t;
                         EvWrap (length (sockets w)) ctx host t] →
      sockets w' = sockets w ++
        [socket.mark_closed
           (socket.with_peer host port
              (socket.with_timeout t socket.fresh))] →
      locks w' = locks w →
      opened hostname port ssl_context t w (Raise (exception_of f)) w'
  | open_plain host w' :
      socket_refusal w = None →
      socket.valid_timeout t = true →
      decode_ascii hostname = Some host →
      ssl_context = None →
      log w' = log w ++ [EvSocket; EvSetTimeout (length (sockets w)) t;
                         EvConnect (length (sockets w)) host port t] →
      sockets w' = sockets w ++
        [socket.with_peer host port (socket.with_timeout t socket.fresh)] →
      locks w' = locks w ++ [false; false] →
      opened hostname port ssl_context t w
        (Return (mk_stream (length (sockets w)) (length (locks w))
                   (S (length (locks w))))) w'
  | open_encrypted host ctx w' :
      socket_refusal w = None →
      socket.valid_timeout t = true →
      decode_ascii hostname = Some host →
      ssl_context = Some ctx →
      log w' = log w ++ [EvSocket; EvSetTimeout (length (sockets w)) t;
                         EvConnect (length (sockets w)) host port t;
                         EvWrap (length (sockets w)) ctx host t] →
      sockets w' = sockets w ++
        [ssl.with_tls ctx host
           (socket.with_peer host port
              (socket.with_timeout t socket.fresh))] →
      locks w' = locks w ++ [false; false] →
      opened hostname port ssl_context t w
        (Return (mk_stream (length (sockets w)) (length (locks w))
                   (S (length (locks w))))) w'.

(** The mapping [open_tcp_stream] passes to [map_exceptions]. *)
Definition connect_map : list (exc_type * exc_type) :=
  [(socket.timeout, Kind ConnectTimeout); (socket.error, Kind ConnectError)].

(** The host [127.0.0.1] as the caller passes it. *)
Definition demo_host : bytes := [x31; x32; x37; x2e; x30; x2e; x30; x2e; x31].

(** The same stream on a network where everything fails: name resolution,
    the receive (timeout), the send (reset) and the close. *)
Definition demo_faulty_world : world :=
  mk_world [demo_socket] [false; false]
    (mk_network [] [Some (gaierror, -2)] [] [inl (socket_timeout, 0)]
       [inl (OSError, ECONNRESET)] [Some (OSError, 5)]) [].




(** ** Sample runs *)

Definition demo_data : bytes := [x01; x02; x03].

Definition demo_written : outcome unit * world :=
  run (write 8 demo_stream demo_data demo_timeout) demo_world.


Definition demo_read : outcome bytes * world :=
  run (read demo_stream 16 demo_timeout) demo_world.

Definition demo_read_busy : outcome bytes * world :=
  run (read demo_stream 16 demo_timeout) demo_busy_world.

Definition demo_write_busy : outcome unit * world :=
  run (write 8 demo_stream demo_data demo_timeout) demo_busy_world.

Definition demo_open_failed : outcome SyncSocketStream * world :=
  run (open_tcp_stream demo_host 80 None demo_timeout) demo_faulty_world.


Definition demo_open_encrypted : outcome SyncSocketStream * world :=
  run (open_tcp_stream demo_host 443 (Some 7%nat) demo_timeout) empty_world.

(** ** Confinement *)

(** Two tables that agree everywhere but at index [i]. *)
Definition same_elsewhere {A} (i : nat) (l l' : list A) : Prop :=
  length l' = length l ∧ ∀ j, j ≠ i → l' !! j = l !! j.

(** A world that differs from another at most in handle [fd], lock [l],
    the script of the network and the log. *)
Definition confined (fd l : nat) (w w' : world) : Prop :=
  same_elsewhere fd (sockets w) (sockets w') ∧
  same_elsewhere l (locks w) (locks w').

(** A platform call that always leaves the world in relation [R] to the
    one it started from. *)
Definition respects (R : world → world → Prop) {X} (c : M X) : Prop :=
  ∀ w r w', c w = (r, w') → R w w'.

(** A program all of whose calls do. *)
Inductive every_call (R : world → world → Prop) {A} : prog A → Prop :=
  | every_ret a : every_call R (Ret a)
  | every_throw e : every_call R (Throw e)
  | every_spin : every_call R Spin
  | every_step X (c : M X) k h :
      respects R c →
      (∀ x, every_call R (k x)) →
      (∀ e, every_call R (h e)) →
      every_call R (Call c k h).

(** ** Writers sharing a stream *)

(** A pool of threads that each write to the same stream: the fuel, the
    data and the deadlines of each. *)
Definition writers (self : SyncSocketStream)
  (jobs : list (nat * bytes * gmap string (option float))) : list thread :=
  (λ j, Thread (write j.1.1 self j.1.2 j.2)) <$> jobs.

(** A thread whose call has returned. *)
Definition returned (t : thread) : bool :=
  match t with
  | Thread p => match p with Ret _ => true | _ => false end
  end.

(** The pool after the threads named in [order] have been given a turn
    each, one after the other; a thread that cannot advance loses its
    turn. *)
Fixpoint schedule (order : list nat) (s : world * list thread)
  : world * list thread :=
  match order with
  | [] => s
  | i :: order' =>
      match s.2 !! i ≫= (λ t, advance t s.1) with
      | Some (t', w') => schedule order' (w', <[i := t']> s.2)
      | None => schedule order' s
      end
  end.

(** A program that still has [rest] to hand to the transport on [fd]:
    each of its calls leaves the locks alone and appends the next bytes of
    [rest] to the outbox of [fd], none when it raises, with [left x] still
    to go when it returns [x]; the program returns only when nothing is
    left. *)
Inductive pending (fd : nat) : bytes → prog unit → Prop :=
  | pending_ret : pending fd [] (Ret tt)
  | pending_throw rest e : pending fd rest (Throw e)
  | pending_spin rest : pending fd rest Spin
  | pending_call X (c : M X) k h rest (left : X → bytes) :
      (∀ w x w', c w = (Return x, w') →
         locks w' = locks w ∧
         ∃ delta,
           rest = delta ++ left x ∧
           outbox (handle (sockets w') fd)
             = outbox (handle (sockets w) fd) ++ delta) →
      (∀ x, pending fd (left x) (k x)) →
      (∀ w e w', c w = (Raise e, w') →
         locks w' = locks w ∧
         outbox (handle (sockets w') fd) = outbox (handle (sockets w) fd)) →
      (∀ e, pending fd rest (h e)) →
      pending fd rest (Call c k h).

(** Thread [i] of a pool of writers, with [data] to write, given the
    blocks [hist] that writers have sent so far, in the order in which the
    writers took the lock: the thread has not taken the lock and has no
    block; or it holds the lock and its block is the last; or it is past
    the lock, with all of [data] as its block when it returned. *)
Inductive writer (self : SyncSocketStream) (w : world)
  (hist : list (nat * bytes)) (i : nat) (data : bytes) : thread → Prop :=
  | writer_queued exc_map body :
      pending (sock self) data body →
      i ∉ hist.*1 →
      writer self w hist i data
        (Thread (with_lock (write_lock self) (map_exceptions exc_map body)))
  | writer_sending exc_map body hist0 sent rest :
      hist = hist0 ++ [(i, sent)] →
      data = sent ++ rest →
      pending (sock self) rest body →
      locks w !! write_lock self = Some true →
      writer self w hist i data
        (Thread (finally (map_exceptions exc_map body)
                   (threading.release (write_lock self))))
  | writer_returned :
      (i, data) ∈ hist → writer self w hist i data (Thread (Ret tt))
  | writer_raised e sent :
      (i, sent) ∈ hist → writer self w hist i data (Thread (@Throw unit e)).

(** The outbox of the stream is what it was ([before]) followed by the
    blocks of the writers, one whole block after the other. *)
Definition serial (self : SyncSocketStream)
  (jobs : list (nat * bytes * gmap string (option float)))
  (before : bytes) (s : world * list thread) : Prop :=
  ∃ hist : list (nat * bytes),
    NoDup hist.*1 ∧
    outbox (handle (sockets s.1) (sock self)) = before ++ concat hist.*2 ∧
    (∀ i sent, (i, sent) ∈ hist →
       ∃ j, jobs !! i = Some j ∧ sent `prefix_of` j.1.2) ∧
    (∀ i t, s.2 !! i = Some t →
       ∃ j, jobs !! i = Some j ∧ writer self s.1 hist i j.1.2 t).

(** ** Further sample worlds and runs *)

(** An open stream whose transport accepts two bytes and is then reset. *)
Definition demo_reset_world : world :=
  mk_world [demo_socket] [false; false]
    (mk_network [] [] [] [] [inr 2%nat; inl (OSError, ECONNRESET)] []) [].

Definition demo_write_reset : outcome unit * world :=
  run (write 8 demo_stream demo_data demo_timeout) demo_reset_world.

Definition demo_close_failed : outcome unit * world :=
  run (close demo_stream) demo_faulty_world.

Definition demo_open_plain : outcome SyncSocketStream * world :=
  run (open_tcp_stream demo_host 80 None demo_timeout) empty_world.

Definition demo_open_second : outcome SyncSocketStream * world :=
  run (open_tcp_stream demo_host 443 (Some 7%nat) demo_timeout)
    demo_open_plain.2.

(** A write on the first of two open streams. *)
Definition demo_two_streams_written : outcome unit * world :=
  run (write 8 (mk_stream 0 0 1) demo_data demo_timeout) demo_open_second.2.

(** An open stream with three bytes waiting to be received. *)
Definition demo_pending_world : world :=
  mk_world [socket.with_inbox [x68; x69; x0a] demo_socket] [false; false]
    empty_network [].

Definition demo_read_pending : outcome bytes * world :=
  run (read demo_stream 2 demo_timeout) demo_pending_world.


(** Two writers on the sample stream, on a transport that takes two bytes,
    then one, then whatever it is given. *)
Definition demo_jobs : list (nat * bytes * gmap string (option float)) :=
  [(8%nat, demo_data, demo_timeout); (8%nat, [x04; x05], demo_timeout)].

Definition demo_chunked_world : world :=
  mk_world [demo_socket] [false; false]
    (mk_network [] [] [] [] [inr 2%nat; inr 1%nat] []) [].

(** The first writer takes the lock and sends its first chunk; the second
    tries to start and has to wait; the first finishes; the second runs. *)
Definition demo_race : world * list thread :=
  schedule [0; 0; 0; 1; 1; 0; 0; 1; 0; 1; 1; 1; 1]%nat
    (demo_chunked_world, writers demo_stream demo_jobs).

(** * Properties *)

(** ** Handles and locks *)

Lemma handle_lookup socks fd :
  closed (handle socks fd) = false → socks !! fd = Some (handle socks fd).
Proof.
  unfold handle. destruct (socks !! fd); simpl; [done | discriminate].
Qed.

Lemma handle_insert socks fd s :
  closed (handle socks fd) = false → handle (<[fd := s]> socks) fd = s.
Proof.
  intros H%handle_lookup. unfold handle at 1.
  rewrite list_lookup_insert_eq; [done | by eapply lookup_lt_Some].
Qed.

Lemma handle_app_new socks st : handle (socks ++ [st]) (length socks) = st.
Proof.
  unfold handle. by rewrite lookup_app_r, Nat.sub_diag.
Qed.

Lemma insert_app_new {A} (l : list A) (x y : A) :
  <[length l := x]> (l ++ [y]) = l ++ [x].
Proof.
  replace (length l) with (length l + 0)%nat by lia.
  by rewrite insert_app_r.
Qed.

Lemma relock (l : nat) (ls : list bool) :
  ls !! l = Some false → <[l := false]> (<[l := true]> ls) = ls.
Proof.
  intros H. rewrite list_insert_insert_eq. by apply list_insert_id.
Qed.

(** ** The two context managers *)

Lemma run_and_then {A B} (p : prog A) (f : A → prog B) w :
  run (and_then p f) w =
    match run p w with
    | (Return a, w') => run (f a) w'
    | (Raise e, w') => (Raise e, w')
    | (Blocked, w') => (Blocked, w')
    | (OutOfFuel, w') => (OutOfFuel, w')
    end.
Proof.
  revert w. induction p as [a|e| |X c k IHk h IHh]; intros w; simpl;
    try done.
  destruct (c w) as [[x|e| |] w']; auto.
Qed.

Lemma run_map_exceptions {A} exc_map (p : prog A) w :
  run (map_exceptions exc_map p) w =
    ((remap exc_map (run p w).1), (run p w).2).
Proof.
  revert w. induction p as [a|e| |X c k IHk h IHh]; intros w; simpl;
    try done.
  destruct (c w) as [[x|e| |] w']; auto.
Qed.

Lemma run_finally_release {A} l (p : prog A) w :
  run (finally p (threading.release l)) w =
    ((run p w).1,
     if exited (run p w).1 then unlocked l (run p w).2 else (run p w).2).
Proof.
  revert w. induction p as [a|e| |X c k IHk h IHh]; intros w; simpl;
    try done.
  destruct (c w) as [[x|e| |] w']; auto.
Qed.

Lemma map_exceptions_inv {A} exc_map (p : prog A) w r w' :
  run (map_exceptions exc_map p) w = (r, w') →
  ∃ r0, run p w = (r0, w') ∧ r = remap exc_map r0.
Proof.
  rewrite run_map_exceptions. destruct (run p w) as [r0 w0].
  intros [= <- <-]. eauto.
Qed.

Lemma exited_remap {A} exc_map (r : outcome A) :
  exited (remap exc_map r) = exited r.
Proof. by destruct r. Qed.

Lemma with_lock_held {A} l (p : prog A) w :
  locks w !! l ≠ Some false →
  run (with_lock l p) w = (Blocked, emit (EvAcquire l) w).
Proof.
  intros H. simpl. unfold threading.acquire, bind, tell. simpl.
  destruct (locks w !! l) as [[]|]; done.
Qed.

Lemma with_lock_free {A} l (p : prog A) w :
  locks w !! l = Some false →
  run (with_lock l p) w =
    ((run p (locked l w)).1,
     if exited (run p (locked l w)).1 then unlocked l (run p (locked l w)).2
     else (run p (locked l w)).2).
Proof.
  intros H. simpl. unfold threading.acquire, bind, tell. simpl.
  rewrite H. fold (locked l w). apply run_finally_release.
Qed.

(** A [with lock: with map_exceptions(exc_map): body] block. *)
Lemma guarded_inv {A} l exc_map (body : prog A) w r w' :
  run (with_lock l (map_exceptions exc_map body)) w = (r, w') →
  (locks w !! l ≠ Some false ∧ r = Blocked ∧
   w' = emit (EvAcquire l) w) ∨
  (locks w !! l = Some false ∧
   ∃ r0 w2, run body (locked l w) = (r0, w2) ∧
            r = remap exc_map r0 ∧
            w' = if exited r0 then unlocked l w2 else w2).
Proof.
  destruct (decide (locks w !! l = Some false)) as [Hfree | Hheld].
  - rewrite with_lock_free, run_map_exceptions by done.
    destruct (run body (locked l w)) as [r0 w2] eqn:Hbody. simpl.
    intros [= <- <-]. right. split; [done|].
    exists r0, w2. by rewrite exited_remap.
  - rewrite with_lock_held by done. intros [= <- <-]. by left.
Qed.


(** ** Symbolic execution of the platform calls *)

Ltac exec :=
  unfold __init__, decode, call in *; simpl in *;
  unfold socket.settimeout, socket.recv, socket.send, socket.close,
    socket.connect, socket.socket, socket.deliver, select.select,
    ssl.wrap_socket, threading.Lock,
    update_handle, get_world, put_sockets, tell,
    ask_socket, ask_connect, ask_handshake, ask_recv, ask_send, ask_close,
    raise, ret, bind, next, set_sockets, set_locks, set_net, emit in *;
  simpl in *.

Ltac hsimp :=
  rewrite ?list_insert_insert_eq, ?handle_insert in * by done; simpl in *.

Ltac newsimp :=
  rewrite ?handle_app_new, ?insert_app_new, ?length_app in *; simpl in *.

Ltac not_in_list :=
  let Hin := fresh "Hin" in
  intros Hin; repeat (apply elem_of_cons in Hin as [Hin | Hin]; [done |]);
  by apply elem_of_nil in Hin.


(** The body of [read]. *)
Lemma read_body_spec fd t n w r w' :
  run (call (socket.settimeout fd t);; call (socket.recv fd n)) w = (r, w') →
  locks w' = locks w ∧
  exited r = true ∧
  raw r ∧
  closed (handle (sockets w') fd) = closed (handle (sockets w) fd) ∧
  (log w' = log w ++ [EvSetTimeout fd t] ∨
   log w' = log w ++ [EvSetTimeout fd t; EvRecv fd n t]) ∧
  (closed (handle (sockets w) fd) = true →
   r = Raise (if socket.valid_timeout t then Raised OSError EBADF
              else Raised ValueError 0)).
Proof.
  exec. intros H.
  destruct (socket.valid_timeout t) eqn:Hv; simpl in *.
  2: { simplify_eq. simpl. split_and!; auto; done. }
  destruct (closed (handle (sockets w) fd)) eqn:Hc; simpl in *.
  { simplify_eq. simpl. split_and!; auto; done. }
  hsimp.
  repeat case_match; simplify_eq/=; hsimp;
    rewrite <- ?app_assoc; simpl; split_and!; auto; done.
Qed.

(** The body of [close]. *)
Lemma close_body_spec fd w r w' :
  run (call (socket.close fd)) w = (r, w') →
  locks w' = locks w ∧
  exited r = true ∧
  raw r ∧
  closed (handle (sockets w') fd) = true ∧
  log w' = log w ++ [EvClose fd] ∧
  (closed (handle (sockets w) fd) = true → r = Return tt).
Proof.
  exec. intros H.
  destruct (closed (handle (sockets w) fd)) eqn:Hc; simpl in *.
  { simplify_eq. simpl. split_and!; auto; done. }
  repeat case_match; simplify_eq/=; hsimp; split_and!; auto; done.
Qed.

(** ** The send loop *)

Lemma take_length_take {A} (n : nat) (l : list A) :
  take (length (take n l)) l = take n l.
Proof.
  revert n. induction l as [|a l IH]; intros [|n]; simpl; try done.
  by rewrite IH.
Qed.

(** One turn of the send loop: the timeout is set and a chunk is sent. *)
Lemma send_step_spec fd t data w r w1 :
  run (call (socket.settimeout fd t);; call (socket.send fd data)) w
    = (r, w1) →
  locks w1 = locks w ∧
  closed (handle (sockets w1) fd) = closed (handle (sockets w) fd) ∧
  on_send (net w1) `suffix_of` on_send (net w) ∧
  match r with
  | Return n =>
      closed (handle (sockets w) fd) = false ∧
      log w1 = log w ++ [EvSetTimeout fd t; EvSend fd data t] ∧
      outbox (handle (sockets w1) fd)
        = outbox (handle (sockets w) fd) ++ take n data ∧
      (n ≤ length data)%nat ∧
      (n = 0%nat → data ≠ [] →
       ∃ rest, on_send (net w) = inr 0%nat :: rest)
  | Raise e =>
      raw (@Raise unit e) ∧
      (log w1 = log w ++ [EvSetTimeout fd t] ∨
       log w1 = log w ++ [EvSetTimeout fd t; EvSend fd data t]) ∧
      (closed (handle (sockets w) fd) = true →
       e = if socket.valid_timeout t then Raised OSError EBADF
           else Raised ValueError 0)
  | _ => False
  end.
Proof.
  exec. intros H.
  destruct (socket.valid_timeout t) eqn:Hv; simpl in *.
  2: { simplify_eq. simpl. split_and!; auto; done. }
  destruct (closed (handle (sockets w) fd)) eqn:Hc; simpl in *.
  { simplify_eq. simpl. split_and!; auto; done. }
  hsimp.
  repeat case_match; simplify_eq/=; hsimp;
    rewrite <- ?app_assoc; simpl; split_and!; auto; try done.
  all: try (match goal with H : on_send _ = _ |- _ => rewrite H end;
            by apply suffix_cons_r).
  all: try apply suffix_nil.
  all: try by rewrite take_length_take.
  all: try by rewrite firstn_all.
  all: try (rewrite length_take; lia).
  all: intros Hn Hd; destruct data; [done|];
    try match goal with H : on_send _ = inr ?k :: _ |- _ => destruct k end;
    simplify_eq/=; by eauto.
Qed.

Lemma send_loop_unfold fuel fd t b data w :
  run (send_loop (S fuel) fd t (b :: data)) w =
    match run (call (socket.settimeout fd t);;
               call (socket.send fd (b :: data))) w with
    | (Return n, w1) => run (send_loop fuel fd t (drop n (b :: data))) w1
    | (Raise e, w1) => (Raise e, w1)
    | (Blocked, w1) => (Blocked, w1)
    | (OutOfFuel, w1) => (OutOfFuel, w1)
    end.
Proof.
  cbn [send_loop run and_then call].
  destruct (socket.settimeout fd t w) as [[[]|e| |] w1]; try done.
  by destruct (socket.send fd (b :: data) w1) as [[n|e| |] w2].
Qed.

(** The send loop with nothing to send. *)
Lemma send_loop_nil fuel fd t : send_loop fuel fd t [] = Ret tt.
Proof. by destruct fuel. Qed.

(** Any run of the send loop: it touches no lock, never waits, raises only
    what the platform raised, and its calls alternate as [send_trace]
    says.  On a closed handle a loop with something to send fails at
    once. *)
Lemma send_loop_spec fuel fd t data w r w' :
  run (send_loop fuel fd t data) w = (r, w') →
  locks w' = locks w ∧
  r ≠ Blocked ∧
  raw r ∧
  closed (handle (sockets w') fd) = closed (handle (sockets w) fd) ∧
  (∃ tr, log w' = log w ++ tr ∧ send_trace fd t tr) ∧
  (closed (handle (sockets w) fd) = true → data ≠ [] → fuel ≠ 0%nat →
   r = Raise (if socket.valid_timeout t then Raised OSError EBADF
              else Raised ValueError 0)).
Proof.
  revert data w. induction fuel as [|fuel IH]; intros [|b data] w.
  - intros [= <- <-]. split_and!; try done.
    exists []. rewrite app_nil_r. split; [done | constructor].
  - intros [= <- <-]. split_and!; try done.
    exists []. rewrite app_nil_r. split; [done | constructor].
  - intros [= <- <-]. split_and!; try done.
    exists []. rewrite app_nil_r. split; [done | constructor].
  - rewrite send_loop_unfold.
    destruct (run (call (socket.settimeout fd t);;
                   call (socket.send fd (b :: data))) w)
      as [r1 w1] eqn:Hstep.
    apply send_step_spec in Hstep as (Hl & Hc & _ & Hr).
    destruct r1 as [n|e| |]; try done.
    + destruct Hr as (Hopen & Hlog & _). intros H.
      apply IH in H as (Hl' & Hb & Hraw & Hc' & (tr & Hlog' & Htr) & _).
      split_and!; try congruence.
      exists (EvSetTimeout fd t :: EvSend fd (b :: data) t :: tr). split.
      * rewrite Hlog', Hlog, <- app_assoc. done.
      * by constructor.
    + destruct Hr as (Hraw & Hlog & Hclosed). intros [= <- <-].
      split_and!; try done.
      * destruct Hlog as [Hlog | Hlog]; eexists; (split; [exact Hlog |]);
          repeat constructor.
      * intros Hcl _ _. by rewrite Hclosed.
Qed.

(** A run of the send loop that returns: what the sends accepted, chunk by
    chunk, is [data], and that is what the transport's handle received. *)
Lemma send_loop_returns fuel fd t data w w' :
  run (send_loop fuel fd t data) w = (Return tt, w') →
  ∃ chunks, concat chunks = data ∧
            log w' = log w ++ send_calls fd t chunks ∧
            outbox (handle (sockets w') fd)
              = outbox (handle (sockets w) fd) ++ data.
Proof.
  revert data w. induction fuel as [|fuel IH]; intros [|b data] w.
  - intros [= <-]. exists []. by rewrite !app_nil_r.
  - intros [=].
  - intros [= <-]. exists []. by rewrite !app_nil_r.
  - rewrite send_loop_unfold.
    destruct (run (call (socket.settimeout fd t);;
                   call (socket.send fd (b :: data))) w)
      as [r1 w1] eqn:Hstep.
    apply send_step_spec in Hstep as (_ & _ & _ & Hr).
    destruct r1 as [n|e| |]; try done.
    destruct Hr as (_ & Hlog & Hout & Hn & _). intros H.
    apply IH in H as (chunks & Hcat & Hlog' & Hout').
    exists (take n (b :: data) :: chunks). split_and!.
    + simpl concat. rewrite Hcat. apply take_drop.
    + rewrite Hlog', Hlog, <- app_assoc. simpl send_calls.
      simpl concat. rewrite Hcat, take_drop. done.
    + rewrite Hout', Hout, <- app_assoc. by rewrite take_drop.
Qed.

(** The loop ends: when every scripted send makes progress, one unit of
    fuel per byte is enough. *)
Lemma send_loop_terminates fuel fd t data w :
  Forall makes_progress (on_send (net w)) →
  (length data ≤ fuel)%nat →
  (run (send_loop fuel fd t data) w).1 ≠ OutOfFuel.
Proof.
  revert data w. induction fuel as [|fuel IH]; intros [|b data] w Hp Hf.
  - done.
  - simpl in Hf. lia.
  - done.
  - rewrite send_loop_unfold.
    destruct (run (call (socket.settimeout fd t);;
                   call (socket.send fd (b :: data))) w)
      as [r1 w1] eqn:Hstep.
    apply send_step_spec in Hstep as (_ & _ & Hsuf & Hr).
    destruct r1 as [n|e| |]; try done.
    destruct Hr as (_ & _ & _ & Hn & Hzero).
    apply IH.
    + destruct Hsuf as [pre Hpre]. rewrite Hpre in Hp.
      by apply Forall_app in Hp as [_ ?].
    + destruct n as [|n].
      * destruct Hzero as [rest Hrest]; [done..|].
        rewrite Hrest in Hp. by inversion Hp.
      * rewrite length_drop. simpl in *. lia.
Qed.

Lemma send_trace_transport fd t tr :
  send_trace fd t tr → Forall (transport_event fd) tr.
Proof. induction 1; repeat constructor; done. Qed.

Lemma write_terminates self data timeout w :
  Forall makes_progress (on_send (net w)) →
  (run (write (length data) self data timeout) w).1 ≠ OutOfFuel.
Proof.
  intros Hp.
  destruct (run (write _ self data timeout) w) as [r w'] eqn:H.
  apply guarded_inv in H as [(_ & -> & _) | (_ & r0 & w2 & H & -> & _)];
    [done|].
  pose proof (send_loop_terminates (length data) (sock self)
                (dict_get timeout "write") data (locked (write_lock self) w)
                Hp (le_n _)) as Hne.
  rewrite H in Hne. by destruct r0.
Qed.

(** ** Methods under a lock *)

Lemma guarded_locked_call {A} l fd exc_map (body : prog A) :
  (∀ w r w', run body w = (r, w') →
     locks w' = locks w ∧ r ≠ Blocked ∧
     ∃ tr, log w' = log w ++ tr ∧ Forall (transport_event fd) tr) →
  locked_call l fd (with_lock l (map_exceptions exc_map body)).
Proof.
  intros Hbody w r w' H.
  apply guarded_inv in H
    as [(Hheld & -> & ->) | (Hfree & r0 & w2 & H & -> & ->)].
  - destruct (locks w !! l) as [[]|]; done.
  - rewrite Hfree. apply Hbody in H as (Hl & Hb & tr & Hlog & Htr).
    rewrite exited_remap. split_and!.
    + by destruct r0.
    + exists tr. split; [done|].
      destruct (exited r0); simpl; rewrite Hlog; simpl;
        rewrite <- ?app_assoc; simpl; by rewrite ?app_nil_r.
    + destruct (exited r0); simpl; rewrite Hl; simpl; [|done].
      by apply relock.
Qed.

Lemma read_locked_call self n timeout :
  locked_call (read_lock self) (sock self) (read self n timeout).
Proof.
  apply guarded_locked_call. intros w r w' H.
  apply read_body_spec in H as (Hl & Hx & _ & _ & Hlog & _).
  split_and!; [done | by destruct r |].
  destruct Hlog as [Hlog | Hlog]; eexists; (split; [exact Hlog |]);
    repeat constructor.
Qed.

Lemma write_locked_call fuel self data timeout :
  locked_call (write_lock self) (sock self) (write fuel self data timeout).
Proof.
  apply guarded_locked_call. intros w r w' H.
  apply send_loop_spec in H as (Hl & Hb & _ & _ & (tr & Hlog & Htr) & _).
  split_and!; try done. exists tr. split; [done|].
  by eapply send_trace_transport.
Qed.

Lemma close_locked_call self :
  locked_call (write_lock self) (sock self) (close self).
Proof.
  apply guarded_locked_call. intros w r w' H.
  apply close_body_spec in H as (Hl & Hx & _ & _ & Hlog & _).
  split_and!; [done | by destruct r |].
  eexists; (split; [exact Hlog |]); repeat constructor.
Qed.

(** ** After close *)









(** ** Opening a stream *)

Ltac open_side :=
  simpl; unfold socket_refusal; rewrite <- ?app_assoc; simpl;
  try match goal with H : on_socket _ = _ |- _ => rewrite H end;
  simpl; first [reflexivity | eassumption].

Lemma open_tcp_stream_inv hostname port ssl_context timeout w r w' :
  run (open_tcp_stream hostname port ssl_context timeout) w = (r, w') →
  ∃ r0, r = remap connect_map r0 ∧
        opened hostname port ssl_context (dict_get timeout "connect") w r0 w'.
Proof.
  unfold open_tcp_stream. intros H.
  apply map_exceptions_inv in H as (r0 & H & ->).
  exists r0. split; [done|].
  revert H. generalize (dict_get timeout "connect"). intros t H.
  unfold socket_refusal in *.
  exec. newsimp.
  destruct (socket.valid_timeout t) eqn:Hv; simpl in *;
    repeat (case_match; simplify_eq/=; newsimp).
  all: rewrite ?Nat.add_1_r.
  all: unfold set_locks; simpl.
  all: first
    [ solve [eapply open_socket_refused; open_side]
    | solve [eapply open_deadline_refused; open_side]
    | solve [eapply open_host_not_ascii; open_side]
    | solve [eapply open_connect_failed; open_side]
    | solve [eapply open_handshake_failed; open_side]
    | solve [eapply open_plain; open_side]
    | solve [eapply open_encrypted; open_side] ].
Qed.

Lemma opened_raw hostname port ssl_context t w r0 w' :
  opened hostname port ssl_context t w r0 w' → raw r0 ∧ exited r0 = true.
Proof. by destruct 1. Qed.

(** ** The exception mapping *)

Lemma timeout_is_error (c : builtin_class) :
  issubclass c socket.timeout = true → issubclass c socket.error = true.
Proof. by destruct c. Qed.

(** What a two-entry mapping, timeout first, makes of a platform
    exception. *)
Lemma surfaced_remap {A} (timeout_kind error_kind : kind) (r0 : outcome A) e :
  raw r0 →
  remap [(socket.timeout, Kind timeout_kind); (socket.error, Kind error_kind)]
    r0 = Raise e →
  surfaced timeout_kind error_kind e.
Proof.
  destruct r0 as [a|[c z|k cause]| |]; try done. intros _ [= <-].
  simpl. unfold isinstance. simpl.
  destruct (issubclass c socket.timeout) eqn:Ht.
  - simpl. unfold isinstance. simpl. rewrite Ht.
    split; [by apply timeout_is_error | done].
  - destruct (issubclass c socket.error) eqn:He; simpl.
    + unfold isinstance. simpl. by rewrite Ht, He.
    + done.
Qed.

(** The same for the one-entry mapping of [close]. *)
Lemma surfaced_remap_close {A} (r0 : outcome A) e :
  raw r0 →
  remap [(socket.error, Kind CloseError)] r0 = Raise e →
  surfaced CloseError CloseError e.
Proof.
  destruct r0 as [a|[c z|k cause]| |]; try done. intros _ [= <-].
  simpl. unfold isinstance. simpl.
  destruct (issubclass c socket.error) eqn:He; simpl.
  - unfold isinstance. simpl. rewrite He. split; [done|]. by case_match.
  - done.
Qed.


(** ** Threads *)

Lemma settimeout_neutral fd t : lock_neutral (socket.settimeout fd t).
Proof.
  intros w r w' H. exec. repeat (case_match; simplify_eq/=); done.
Qed.

Lemma recv_neutral fd n : lock_neutral (socket.recv fd n).
Proof.
  intros w r w' H. exec. repeat (case_match; simplify_eq/=); done.
Qed.

Lemma send_neutral fd data : lock_neutral (socket.send fd data).
Proof.
  intros w r w' H. exec. repeat (case_match; simplify_eq/=); done.
Qed.

Lemma close_neutral fd : lock_neutral (socket.close fd).
Proof.
  intros w r w' H. exec. repeat (case_match; simplify_eq/=); done.
Qed.

Lemma transport_only_call {X} (c : M X) :
  lock_neutral c → transport_only (call c).
Proof. intros Hc. constructor; [done | constructor..]. Qed.

Lemma transport_only_and_then {A B} (p : prog A) (f : A → prog B) :
  transport_only p → (∀ a, transport_only (f a)) →
  transport_only (and_then p f).
Proof.
  intros Hp Hf. induction Hp; simpl; try constructor; auto.
Qed.

Lemma transport_only_map_exceptions {A} exc_map (p : prog A) :
  transport_only p → transport_only (map_exceptions exc_map p).
Proof. induction 1; simpl; constructor; auto. Qed.

Lemma transport_only_send_loop fuel fd t data :
  transport_only (send_loop fuel fd t data).
Proof.
  revert data. induction fuel as [|fuel IH]; intros [|b data]; simpl;
    try constructor.
  - apply settimeout_neutral.
  - intros _. constructor; [apply send_neutral | auto | constructor].
  - constructor.
Qed.

Lemma method_call_waiting self t :
  method_call self t → ∃ l, at_mode (Waiting l) t.
Proof.
  destruct 1 as [n timeout|fuel data timeout|].
  - eexists. apply at_waiting, transport_only_map_exceptions.
    apply transport_only_and_then.
    + apply transport_only_call, settimeout_neutral.
    + intros _. apply transport_only_call, recv_neutral.
  - eexists. apply at_waiting, transport_only_map_exceptions.
    apply transport_only_send_loop.
  - eexists. apply at_waiting, transport_only_map_exceptions.
    apply transport_only_call, close_neutral.
Qed.

Lemma advance_waiting {A} l (body : prog A) w t' w' :
  advance (Thread (with_lock l body)) w = Some (t', w') →
  locks w !! l = Some false ∧
  t' = Thread (finally body (threading.release l)) ∧
  w' = locked l w.
Proof.
  simpl. unfold threading.acquire, bind, tell. simpl.
  destruct (locks w !! l) as [[]|]; try done.
  by intros [= <- <-].
Qed.

Lemma advance_inside {A} l (body : prog A) w t' w' :
  transport_only body →
  advance (Thread (finally body (threading.release l))) w = Some (t', w') →
  (exited (run body w).1 = true ∧ at_mode Over t' ∧ w' = unlocked l w) ∨
  (at_mode (Inside l) t' ∧ locks w' = locks w).
Proof.
  destruct 1 as [a|e| |X c k h Hc Hk Hh]; simpl.
  - intros [= <- <-]. left. split_and!; [done | constructor | done].
  - intros [= <- <-]. left. split_and!; [done | constructor | done].
  - done.
  - destruct (c w) as [r w1] eqn:Hcw. apply Hc in Hcw as [Hl _].
    destruct r as [x|e| |]; try done; intros [= <- <-]; right;
      (split; [by constructor | done]).
Qed.

(** A step keeps the threads exclusive. *)
Lemma exclusive_step w ts w' ts' :
  exclusive w ts → step (w, ts) (w', ts') → exclusive w' ts'.
Proof.
  intros (modes & Hall & Hheld & Huniq) Hstep.
  inversion Hstep as [i t t' w0 w0' ts0 Hi Hadv]; subst.
  destruct (Forall2_lookup_r _ _ _ _ _ Hall Hi) as (m & Hm & Hat).
  assert (i < length modes)%nat as Hlen by (by eapply lookup_lt_Some).
  destruct Hat as [l A body Hbody|l A body Hbody|A a|A e].
  - apply advance_waiting in Hadv as (Hfree & -> & ->).
    assert (l < length (locks w))%nat as Hl by (by eapply lookup_lt_Some).
    exists (<[i := Inside l]> modes). split_and!.
    + apply Forall2_insert; [done | by constructor].
    + intros j l' Hj. simpl.
      destruct (decide (j = i)) as [-> | Hne].
      * rewrite list_lookup_insert_eq in Hj by done. simplify_eq.
        by rewrite list_lookup_insert_eq.
      * rewrite list_lookup_insert_ne in Hj by done.
        destruct (decide (l' = l)) as [-> | Hl'].
        -- by rewrite list_lookup_insert_eq.
        -- rewrite list_lookup_insert_ne by done. eauto.
    + intros j j' l' Hj Hj'.
      destruct (decide (j = i)) as [-> | Hne];
        destruct (decide (j' = i)) as [-> | Hne']; try done.
      * rewrite list_lookup_insert_eq in Hj by done.
        rewrite list_lookup_insert_ne in Hj' by done. simplify_eq.
        apply Hheld in Hj'. congruence.
      * rewrite list_lookup_insert_eq in Hj' by done.
        rewrite list_lookup_insert_ne in Hj by done. simplify_eq.
        apply Hheld in Hj. congruence.
      * rewrite list_lookup_insert_ne in Hj, Hj' by done. eauto.
  - apply advance_inside in Hadv as [(_ & Hover & ->) | (Hin & Hl)];
      [| |done].
    + exists (<[i := Over]> modes). split_and!.
      * by apply Forall2_insert.
      * intros j l' Hj. simpl.
        destruct (decide (j = i)) as [-> | Hne].
        { by rewrite list_lookup_insert_eq in Hj by done. }
        rewrite list_lookup_insert_ne in Hj by done.
        destruct (decide (l' = l)) as [-> | Hl'].
        { by specialize (Huniq _ _ _ Hj Hm). }
        rewrite list_lookup_insert_ne by done. eauto.
      * intros j j' l' Hj Hj'.
        destruct (decide (j = i)) as [-> | Hne].
        { by rewrite list_lookup_insert_eq in Hj by done. }
        destruct (decide (j' = i)) as [-> | Hne'].
        { by rewrite list_lookup_insert_eq in Hj' by done. }
        rewrite list_lookup_insert_ne in Hj, Hj' by done. eauto.
    + exists modes. split_and!.
      * rewrite <- (list_insert_id modes i (Inside l)) by done.
        by apply Forall2_insert.
      * intros j l' Hj. rewrite Hl. eauto.
      * done.
  - done.
  - done.
Qed.

Lemma exclusive_steps s s' :
  steps s s' → exclusive s.1 s.2 → exclusive s'.1 s'.2.
Proof.
  induction 1 as [s|s1 s2 s3 _ IH Hstep]; [done|].
  intros H. specialize (IH H).
  destruct s2 as [w2 ts2], s3 as [w3 ts3]. simpl in *.
  exact (exclusive_step _ _ _ _ IH Hstep).
Qed.

Lemma method_calls_exclusive self w ts :
  Forall (method_call self) ts → exclusive w ts.
Proof.
  intros Hts.
  assert (∃ modes, Forall2 at_mode modes ts ∧
                   Forall (λ m, ∃ l, m = Waiting l) modes)
    as (modes & Hall & Hwait).
  { induction Hts as [|t ts Ht _ (modes & Hall & Hwait)].
    - exists []. by split.
    - apply method_call_waiting in Ht as [l Hl].
      exists (Waiting l :: modes). split; constructor; eauto. }
  exists modes. split_and!; [done | |].
  - intros i l Hi. eapply Forall_lookup_1 in Hwait as [l' ?]; [|done].
    congruence.
  - intros i j l Hi. eapply Forall_lookup_1 in Hwait as [l' ?]; [|done].
    congruence.
Qed.

Lemma advance_acquire {A} l (body : prog A) w :
  locks w !! l = Some false →
  advance (Thread (with_lock l body)) w
    = Some (Thread (finally body (threading.release l)), locked l w).
Proof.
  intros H. simpl. unfold threading.acquire, bind, tell. simpl.
  by rewrite H.
Qed.

Lemma step_at i t t' w w' ts ts' :
  ts !! i = Some t → advance t w = Some (t', w') → ts' = <[i := t']> ts →
  step (w, ts) (w', ts').
Proof. intros Hi Hadv ->. by econstructor. Qed.

(** A reader and a writer can be inside their blocks at the same time. *)
Lemma reader_and_writer_inside self n timeout fuel data timeout' w :
  read_lock self ≠ write_lock self →
  locks w !! read_lock self = Some false →
  locks w !! write_lock self = Some false →
  ∃ w', steps (w, [Thread (read self n timeout);
                   Thread (write fuel self data timeout')])
              (w', [Thread (finally
                              (map_exceptions
                                 [(socket.timeout, Kind ReadTimeout);
                                  (socket.error, Kind ReadError)]
                                 (call (socket.settimeout (sock self)
                                          (dict_get timeout "read"));;
                                  call (socket.recv (sock self) n)))
                              (threading.release (read_lock self)));
                    Thread (finally
                              (map_exceptions
                                 [(socket.timeout, Kind WriteTimeout);
                                  (socket.error, Kind WriteError)]
                                 (send_loop fuel (sock self)
                                    (dict_get timeout' "write") data))
                              (threading.release (write_lock self)))]) ∧
        locks w' !! read_lock self = Some true ∧
        locks w' !! write_lock self = Some true.
Proof.
  intros Hne Hr Hw.
  assert (read_lock self < length (locks w))%nat by (by eapply lookup_lt_Some).
  assert (write_lock self < length (locks w))%nat by (by eapply lookup_lt_Some).
  exists (locked (write_lock self) (locked (read_lock self) w)).
  split_and!.
  - eapply steps_step; [eapply steps_step; [apply steps_refl|]|].
    + eapply (step_at 0); [reflexivity | | reflexivity].
      by apply advance_acquire.
    + eapply (step_at 1); [reflexivity | | reflexivity].
      apply advance_acquire. simpl. by rewrite list_lookup_insert_ne.
  - simpl. rewrite list_lookup_insert_ne by done.
    by rewrite list_lookup_insert_eq.
  - simpl. by rewrite list_lookup_insert_eq by (by rewrite length_insert).
Qed.

(** ** Hand-over of the data (C1) *)

(** C1: when [write] returns, the whole of [data] was handed to the
    transport once, in order: the sends accepted chunks whose
    concatenation is [data], each send was given exactly what the earlier
    ones had not accepted, and the handle received [data] and nothing
    else. *)
Theorem write_hands_over_all fuel self data timeout w w' :
  run (write fuel self data timeout) w = (Return tt, w') →
  ∃ chunks,
    concat chunks = data ∧
    log w' = log w ++ EvAcquire (write_lock self)
               :: send_calls (sock self) (dict_get timeout "write") chunks
               ++ [EvRelease (write_lock self)] ∧
    outbox (handle (sockets w') (sock self))
      = outbox (handle (sockets w) (sock self)) ++ data.
Proof.
  intros H.
  apply guarded_inv in H as [(_ & [=] & _) | (_ & r0 & w2 & H & Hr & ->)].
  destruct r0 as [[]|e| |]; try done.
  apply send_loop_returns in H as (chunks & Hcat & Hlog & Hout).
  exists chunks. simpl. split_and!; [done | | done].
  rewrite Hlog. simpl. by rewrite <- !app_assoc.
Qed.

Lemma write_hands_over_all_witness :
  demo_written = (Return tt, demo_written.2) ∧
  ∃ chunks,
    concat chunks = demo_data ∧
    log demo_written.2
      = log demo_world ++ EvAcquire (write_lock demo_stream)
          :: send_calls (sock demo_stream) (dict_get demo_timeout "write")
               chunks
          ++ [EvRelease (write_lock demo_stream)] ∧
    outbox (handle (sockets demo_written.2) (sock demo_stream))
      = outbox (handle (sockets demo_world) (sock demo_stream)) ++ demo_data.
Proof.
  split; [by vm_compute |].
  apply (write_hands_over_all 8 demo_stream demo_data demo_timeout
           demo_world).
  by vm_compute.
Defined.

(** ** Error kinds (C2) *)

(** C2: whatever [read], [write], [close] or [open_tcp_stream] raises, a
    transport failure (an instance of [socket.error]) never comes out as
    it was raised: it comes out wrapped in the timeout kind of the phase
    when it is a [socket.timeout], and in the error kind of the phase
    otherwise ([close] has the one kind [CloseError]).  Only exceptions
    that are no transport failures pass unchanged. *)
Theorem transport_failures_are_mapped :
  (∀ self n timeout w e w',
     run (read self n timeout) w = (Raise e, w') →
     surfaced ReadTimeout ReadError e) ∧
  (∀ fuel self data timeout w e w',
     run (write fuel self data timeout) w = (Raise e, w') →
     surfaced WriteTimeout WriteError e) ∧
  (∀ self w e w',
     run (close self) w = (Raise e, w') →
     surfaced CloseError CloseError e) ∧
  (∀ hostname port ssl_context timeout w e w',
     run (open_tcp_stream hostname port ssl_context timeout) w
       = (Raise e, w') →
     surfaced ConnectTimeout ConnectError e) ∧
  (∀ timeout_kind error_kind e,
     surfaced timeout_kind error_kind e →
     isinstance e socket.error = false ∧
     (type_of e ∈ semantic_kinds ∨ ∃ c z, e = Raised c z)).
Proof.
  split_and!.
  - intros self n timeout w e w' H.
    apply guarded_inv in H as [(_ & [=] & _) | (_ & r0 & w2 & H & Hr & _)].
    apply read_body_spec in H as (_ & _ & Hraw & _).
    by eapply surfaced_remap.
  - intros fuel self data timeout w e w' H.
    apply guarded_inv in H as [(_ & [=] & _) | (_ & r0 & w2 & H & Hr & _)].
    apply send_loop_spec in H as (_ & _ & Hraw & _).
    by eapply surfaced_remap.
  - intros self w e w' H.
    apply guarded_inv in H as [(_ & [=] & _) | (_ & r0 & w2 & H & Hr & _)].
    apply close_body_spec in H as (_ & _ & Hraw & _).
    by eapply surfaced_remap_close.
  - intros hostname port ssl_context timeout w e w' H.
    apply open_tcp_stream_inv in H as (r0 & Hr & H).
    apply opened_raw in H as [Hraw _].
    by eapply surfaced_remap.
  - intros timeout_kind error_kind [c z|k cause]; simpl.
    + intros H. split; [done | eauto].
    + intros [_ ->]. split.
      * by repeat case_match.
      * left. unfold semantic_kinds.
        destruct timeout_kind, error_kind; repeat case_match; set_solver.
Qed.

Lemma transport_failures_are_mapped_witness :
  (run (read demo_stream 16 demo_timeout) demo_faulty_world
     = (Raise (Mapped ReadTimeout (Raised socket_timeout 0)),
        (run (read demo_stream 16 demo_timeout) demo_faulty_world).2) ∧
   surfaced ReadTimeout ReadError
     (Mapped ReadTimeout (Raised socket_timeout 0))) ∧
  (run (write 4 demo_stream [x01] demo_timeout) demo_faulty_world
     = (Raise (Mapped WriteError (Raised OSError ECONNRESET)),
        (run (write 4 demo_stream [x01] demo_timeout) demo_faulty_world).2) ∧
   surfaced WriteTimeout WriteError
     (Mapped WriteError (Raised OSError ECONNRESET))) ∧
  (run (close demo_stream) demo_faulty_world
     = (Raise (Mapped CloseError (Raised OSError 5)),
        (run (close demo_stream) demo_faulty_world).2) ∧
   surfaced CloseError CloseError (Mapped CloseError (Raised OSError 5))) ∧
  (run (open_tcp_stream demo_host 80 None demo_timeout) demo_faulty_world
     = (Raise (Mapped ConnectError (Raised gaierror (-2))),
        (run (open_tcp_stream demo_host 80 None demo_timeout)
           demo_faulty_world).2) ∧
   surfaced ConnectTimeout ConnectError
     (Mapped ConnectError (Raised gaierror (-2)))).
Proof.
  destruct transport_failures_are_mapped as (Hr & Hw & Hc & Ho & _).
  split_and!; try reflexivity.
  - eapply (Hr demo_stream 16 demo_timeout demo_faulty_world). reflexivity.
  - eapply (Hw 4%nat demo_stream [x01] demo_timeout demo_faulty_world).
    reflexivity.
  - eapply (Hc demo_stream demo_faulty_world). reflexivity.
  - eapply (Ho demo_host 80 None demo_timeout demo_faulty_world).
    reflexivity.
Defined.

(** ** Failed open (C3) *)




(** ** Closed streams (C4) *)




(** ** The dropped-connection probe (C5) *)




(** ** Deadlines (C6) *)



(** ** Lock discipline (C7) *)

(** C7: [read] works under the read lock, [write] and [close] under the
    write lock, as [locked_call] says: with its lock free each acquires
    it, makes nothing but transport calls on the handle of the stream, and
    releases it on return and on exception alike, leaving all locks as
    they were; with its lock held each waits and touches nothing.  Neither
    looks at the other lock.  So, however threads that run these methods
    on one stream are interleaved, no two of them are inside the block of
    the same lock, while a reader and a writer can be inside theirs
    together. *)
Theorem lock_discipline self :
  (∀ n timeout,
     locked_call (read_lock self) (sock self) (read self n timeout)) ∧
  (∀ fuel data timeout,
     locked_call (write_lock self) (sock self)
       (write fuel self data timeout)) ∧
  locked_call (write_lock self) (sock self) (close self) ∧
  (∀ w ts w' ts',
     Forall (method_call self) ts → steps (w, ts) (w', ts') →
     exclusive w' ts') ∧
  (∀ n timeout fuel data timeout' w,
     read_lock self ≠ write_lock self →
     locks w !! read_lock self = Some false →
     locks w !! write_lock self = Some false →
     ∃ w' (p : prog bytes) (q : prog unit),
       steps (w, [Thread (read self n timeout);
                  Thread (write fuel self data timeout')])
             (w', [Thread p; Thread q]) ∧
       at_mode (Inside (read_lock self)) (Thread p) ∧
       at_mode (Inside (write_lock self)) (Thread q) ∧
       locks w' !! read_lock self = Some true ∧
       locks w' !! write_lock self = Some true).
Proof.
  split_and!.
  - intros. apply read_locked_call.
  - intros. apply write_locked_call.
  - apply close_locked_call.
  - intros w ts w' ts' Hts Hsteps.
    apply (exclusive_steps _ _ Hsteps). simpl.
    by eapply method_calls_exclusive.
  - intros n timeout fuel data timeout' w Hne Hr Hw.
    destruct (reader_and_writer_inside self n timeout fuel data timeout' w
                Hne Hr Hw) as (w' & Hsteps & Hr' & Hw').
    eexists w', _, _. split_and!; [exact Hsteps | | | done | done].
    + apply at_inside, transport_only_map_exceptions.
      apply transport_only_and_then.
      * apply transport_only_call, settimeout_neutral.
      * intros _. apply transport_only_call, recv_neutral.
    + apply at_inside, transport_only_map_exceptions.
      apply transport_only_send_loop.
Qed.

Lemma lock_discipline_witness :
  (demo_read.1 ≠ Blocked ∧
   (∃ tr,
      Forall (transport_event (sock demo_stream)) tr ∧
      log demo_read.2
        = log demo_world ++ EvAcquire (read_lock demo_stream) :: tr ++
            [EvRelease (read_lock demo_stream)]) ∧
   locks demo_read.2 = locks demo_world) ∧
  (demo_read_busy.1 = Blocked ∧
   demo_read_busy.2
     = emit (EvAcquire (read_lock demo_stream)) demo_busy_world) ∧
  demo_write_busy.1 ≠ Blocked.
Proof.
  destruct (lock_discipline demo_stream) as (Hr & Hw & _ & _ & _).
  split_and!.
  - apply (Hr 16 demo_timeout demo_world demo_read.1 demo_read.2 eq_refl).
  - apply (Hr 16 demo_timeout demo_world demo_read.1 demo_read.2 eq_refl).
  - apply (Hr 16 demo_timeout demo_world demo_read.1 demo_read.2 eq_refl).
  - apply (Hr 16 demo_timeout demo_busy_world demo_read_busy.1
             demo_read_busy.2 eq_refl).
  - apply (Hr 16 demo_timeout demo_busy_world demo_read_busy.1
             demo_read_busy.2 eq_refl).
  - apply (Hw 8%nat demo_data demo_timeout demo_busy_world
             demo_write_busy.1 demo_write_busy.2 eq_refl).
Defined.

(** ** Encrypted open (C8) *)

(** C8: a run of [open_tcp_stream] with an encryption context either fails
    before a connection exists (no handshake is attempted), or performs
    the handshake on the handle it has just connected, with the decoded
    host as server name, under the connect deadline set once before
    [connect] and never set again.  When it returns, the stream holds that
    handle, upgraded and open, and two locks created for it, both free. *)
Theorem open_encrypted_handshake hostname port ctx timeout w r w' :
  run (open_tcp_stream hostname port (Some ctx) timeout) w = (r, w') →
  (∃ e tr, r = Raise e ∧
           peer (handle (sockets w') (length (sockets w))) = None ∧
           log w' = log w ++ tr ∧
           ∀ fd c h u, EvWrap fd c h u ∉ tr) ∨
  (∃ host,
     decode_ascii hostname = Some host ∧
     peer (handle (sockets w') (length (sockets w))) = Some (host, port) ∧
     log w' = log w ++
       [EvSocket;
        EvSetTimeout (length (sockets w)) (dict_get timeout "connect");
        EvConnect (length (sockets w)) host port (dict_get timeout "connect");
        EvWrap (length (sockets w)) ctx host (dict_get timeout "connect")] ∧
     match r with
     | Return s =>
         sock s = length (sockets w) ∧
         tls (handle (sockets w') (sock s)) = Some (ctx, host) ∧
         closed (handle (sockets w') (sock s)) = false ∧
         read_lock s = length (locks w) ∧
         write_lock s = S (length (locks w)) ∧
         locks w' = locks w ++ [false; false]
     | Raise e => locks w' = locks w
     | _ => False
     end).
Proof.
  intros H. apply open_tcp_stream_inv in H as (r0 & -> & H).
  destruct H as [f w' Hs Hlog Hsock Hl
                |w' Hs Hv Hlog Hsock Hl
                |w' Hs Hv Hd Hlog Hsock Hl
                |host c z w' Hs Hv Hd Hlog Hsock Hl
                |host ctx' f w' Hs Hv Hd Hctx Hlog Hsock Hl
                |host w' Hs Hv Hd Hctx Hlog Hsock Hl
                |host ctx' w' Hs Hv Hd Hctx Hlog Hsock Hl];
    simplify_eq; rewrite Hsock, ?handle_app_new.
  - left. eexists _, _. split_and!; [done | | done |].
    + unfold handle. by rewrite lookup_ge_None_2.
    + intros fd0 c0 h0 u0. not_in_list.
  - left. eexists _, _. split_and!; [done | done | done |].
    intros fd0 c0 h0 u0. not_in_list.
  - left. eexists _, _. split_and!; [done | done | done |].
    intros fd0 c0 h0 u0. not_in_list.
  - left. eexists _, _. split_and!; [done | done | done |].
    intros fd0 c0 h0 u0. not_in_list.
  - right. exists host. by split_and!.
  - right. exists host. simpl. rewrite handle_app_new. by split_and!.
Qed.

Lemma open_encrypted_handshake_witness :
  demo_open_encrypted = (Return (mk_stream 0 0 1), demo_open_encrypted.2) ∧
  ((∃ e tr,
      Return (mk_stream 0 0 1) = Raise e ∧
      peer (handle (sockets demo_open_encrypted.2)
              (length (sockets empty_world))) = None ∧
      log demo_open_encrypted.2 = log empty_world ++ tr ∧
      ∀ fd c h u, EvWrap fd c h u ∉ tr) ∨
   (∃ host,
      decode_ascii demo_host = Some host ∧
      peer (handle (sockets demo_open_encrypted.2)
              (length (sockets empty_world))) = Some (host, 443) ∧
      log demo_open_encrypted.2
        = log empty_world ++
            [EvSocket;
             EvSetTimeout (length (sockets empty_world))
               (dict_get demo_timeout "connect");
             EvConnect (length (sockets empty_world)) host 443
               (dict_get demo_timeout "connect");
             EvWrap (length (sockets empty_world)) 7 host
               (dict_get demo_timeout "connect")] ∧
      sock (mk_stream 0 0 1) = length (sockets empty_world) ∧
      tls (handle (sockets demo_open_encrypted.2) (sock (mk_stream 0 0 1)))
        = Some (7%nat, host) ∧
      closed (handle (sockets demo_open_encrypted.2)
                (sock (mk_stream 0 0 1))) = false ∧
      read_lock (mk_stream 0 0 1) = length (locks empty_world) ∧
      write_lock (mk_stream 0 0 1) = S (length (locks empty_world)) ∧
      locks demo_open_encrypted.2 = locks empty_world ++ [false; false])).
Proof.
  split; [reflexivity |].
  apply (open_encrypted_handshake demo_host 443 7%nat demo_timeout
           empty_world (Return (mk_stream 0 0 1))).
  reflexivity.
Defined.

(** ** Empty write (C9) *)

(** C9: [write] of the empty byte string, on a stream whose write lock is
    free, acquires and releases that lock and does nothing else: the world
    is unchanged but for these two log entries (no timeout is set, nothing
    is sent), and the call returns, whatever the state of the handle. *)
Theorem write_empty fuel self timeout w :
  locks w !! write_lock self = Some false →
  run (write fuel self [] timeout) w =
    (Return tt,
     mk_world (sockets w) (locks w) (net w)
       (log w ++ [EvAcquire (write_lock self); EvRelease (write_lock self)])).
Proof.
  intros Hfree. unfold write. rewrite with_lock_free by done.
  unfold map_exceptions. rewrite send_loop_nil.
  unfold unlocked, locked, set_locks, emit. simpl.
  rewrite relock by done. by rewrite <- app_assoc.
Qed.

Lemma write_empty_witness :
  locks demo_closed_world !! write_lock demo_stream = Some false ∧
  closed (handle (sockets demo_closed_world) (sock demo_stream)) = true ∧
  run (write 0 demo_stream [] demo_timeout) demo_closed_world =
    (Return tt,
     mk_world (sockets demo_closed_world) (locks demo_closed_world)
       (net demo_closed_world)
       (log demo_closed_world ++ [EvAcquire 1; EvRelease 1])).
Proof.
  split; [reflexivity |]. split; [reflexivity |].
  apply (write_empty 0 demo_stream demo_timeout demo_closed_world).
  reflexivity.
Defined.

(** ** Host decoding (C10) *)




(** * Further properties *)

(** ** What a write hands over when it does not return *)

(** One turn of the send loop and the two byte queues of the handle. *)
Lemma send_step_queues fd t data w r w1 :
  run (call (socket.settimeout fd t);; call (socket.send fd data)) w
    = (r, w1) →
  inbox (handle (sockets w1) fd) = inbox (handle (sockets w) fd) ∧
  outbox (handle (sockets w1) fd)
    = outbox (handle (sockets w) fd)
        ++ match r with Return n => take n data | _ => [] end.
Proof.
  exec. intros H.
  destruct (socket.valid_timeout t) eqn:Hv; simpl in *.
  2: { simplify_eq. simpl. by rewrite app_nil_r. }
  destruct (closed (handle (sockets w) fd)) eqn:Hc; simpl in *.
  { simplify_eq. simpl. by rewrite app_nil_r. }
  hsimp.
  repeat case_match; simplify_eq/=; hsimp; rewrite ?app_nil_r;
    rewrite ?take_length_take, ?firstn_all; done.
Qed.

Lemma send_loop_prefix fuel fd t data w r w' :
  run (send_loop fuel fd t data) w = (r, w') →
  inbox (handle (sockets w') fd) = inbox (handle (sockets w) fd) ∧
  ∃ sent,
    sent `prefix_of` data ∧
    outbox (handle (sockets w') fd) = outbox (handle (sockets w) fd) ++ sent ∧
    (r = Return tt → sent = data).
Proof.
  revert data w. induction fuel as [|fuel IH]; intros [|b data] w.
  - intros [= <- <-]. split; [done|]. exists []. by rewrite app_nil_r.
  - intros [= <- <-]. split; [done|]. exists [].
    split_and!; [apply prefix_nil | by rewrite app_nil_r | done].
  - intros [= <- <-]. split; [done|]. exists []. by rewrite app_nil_r.
  - rewrite send_loop_unfold.
    destruct (run (call (socket.settimeout fd t);;
                   call (socket.send fd (b :: data))) w)
      as [r1 w1] eqn:Hstep.
    apply send_step_queues in Hstep as (Hin & Hout).
    destruct r1 as [n|e| |].
    + intros H. apply IH in H as (Hin' & sent & Hpre & Hout' & Hret).
      split; [congruence|].
      exists (take n (b :: data) ++ sent). split_and!.
      * rewrite <- (take_drop n (b :: data)) at 2. by apply prefix_app.
      * rewrite Hout', Hout. by rewrite <- app_assoc.
      * intros Hr. rewrite (Hret Hr). apply take_drop.
    + intros [= <- <-]. split; [done|]. exists [].
      split_and!; [apply prefix_nil | by rewrite Hout | done].
    + intros [= <- <-]. split; [done|]. exists [].
      split_and!; [apply prefix_nil | by rewrite Hout | done].
    + intros [= <- <-]. split; [done|]. exists [].
      split_and!; [apply prefix_nil | by rewrite Hout | done].
Qed.

(** X1: however [write] ends, by return, by exception or still looping,
    what the transport has accepted from it is a prefix of [data], appended
    to what it had accepted before, and the whole of [data] when [write]
    returns; the bytes waiting to be received are not touched. *)
Theorem write_sends_prefix fuel self data timeout w r w' :
  run (write fuel self data timeout) w = (r, w') →
  inbox (handle (sockets w') (sock self))
    = inbox (handle (sockets w) (sock self)) ∧
  ∃ sent,
    sent `prefix_of` data ∧
    outbox (handle (sockets w') (sock self))
      = outbox (handle (sockets w) (sock self)) ++ sent ∧
    (r = Return tt → sent = data).
Proof.
  intros H.
  apply guarded_inv in H as [(_ & -> & ->) | (_ & r0 & w2 & H & -> & ->)].
  - split; [done|]. exists [].
    split_and!; [apply prefix_nil | by rewrite app_nil_r | done].
  - apply send_loop_prefix in H as (Hin & sent & Hpre & Hout & Hret).
    assert (∀ b : bool, sockets (if b then unlocked (write_lock self) w2
                                 else w2) = sockets w2) as Hs
      by (by intros []).
    rewrite Hs. split; [done|]. exists sent. split_and!; [done..|].
    intros Hr. apply Hret. by destruct r0.
Qed.

Lemma write_sends_prefix_witness :
  demo_write_reset = (Raise (Mapped WriteError (Raised OSError ECONNRESET)),
                      demo_write_reset.2) ∧
  inbox (handle (sockets demo_write_reset.2) (sock demo_stream))
    = inbox (handle (sockets demo_reset_world) (sock demo_stream)) ∧
  ∃ sent,
    sent `prefix_of` demo_data ∧
    outbox (handle (sockets demo_write_reset.2) (sock demo_stream))
      = outbox (handle (sockets demo_reset_world) (sock demo_stream))
          ++ sent ∧
    (Raise (Mapped WriteError (Raised OSError ECONNRESET)) = Return tt →
     sent = demo_data).
Proof.
  split; [reflexivity |].
  apply (write_sends_prefix 8 demo_stream demo_data demo_timeout
           demo_reset_world).
  reflexivity.
Defined.

(** ** Fuel *)

(** X2: [write] ends.  On a network whose sends each accept at least one
    byte or fail, the loop of [write] is over after at most one turn per
    byte of [data]: with that much fuel the model never runs out, so the
    call returns, raises, or waits for the write lock. *)
Theorem write_ends fuel self data timeout w :
  Forall makes_progress (on_send (net w)) →
  (length data ≤ fuel)%nat →
  (run (write fuel self data timeout) w).1 ≠ OutOfFuel.
Proof.
  intros Hp Hf.
  destruct (run (write fuel self data timeout) w) as [r w'] eqn:H.
  apply guarded_inv in H as [(_ & -> & _) | (_ & r0 & w2 & H & -> & _)];
    [done|].
  pose proof (send_loop_terminates fuel (sock self)
                (dict_get timeout "write") data (locked (write_lock self) w)
                Hp Hf) as Hne.
  rewrite H in Hne. by destruct r0.
Qed.

Lemma write_ends_witness :
  Forall makes_progress (on_send (net demo_reset_world)) ∧
  (length demo_data ≤ 3)%nat ∧
  (run (write 3 demo_stream demo_data demo_timeout) demo_reset_world).1
    ≠ OutOfFuel.
Proof.
  split; [by repeat constructor |]. split; [reflexivity |].
  apply (write_ends 3 demo_stream demo_data demo_timeout demo_reset_world).
  - by repeat constructor.
  - reflexivity.
Defined.

(** ** Closing *)

(** X3: only [close] closes.  [read], [write] and [is_connection_dropped]
    leave the handle as open or as closed as they found it, whatever
    their outcome: a failed read or write does not close the stream. *)
Theorem only_close_closes self w :
  (∀ n timeout,
     closed (handle (sockets (run (read self n timeout) w).2) (sock self))
       = closed (handle (sockets w) (sock self))) ∧
  (∀ fuel data timeout,
     closed (handle (sockets (run (write fuel self data timeout) w).2)
               (sock self))
       = closed (handle (sockets w) (sock self))) ∧
  closed (handle (sockets (run (is_connection_dropped self) w).2) (sock self))
    = closed (handle (sockets w) (sock self)).
Proof.
  assert (∀ (b : bool) l w2,
            sockets (if b then unlocked l w2 else w2) = sockets w2) as Hs
    by (by intros []).
  split_and!.
  - intros n timeout.
    destruct (run (read self n timeout) w) as [r w'] eqn:H.
    apply guarded_inv in H as [(_ & -> & ->) | (_ & r0 & w2 & H & -> & ->)];
      [done|].
    apply read_body_spec in H as (_ & _ & _ & Hc & _).
    simpl. by rewrite Hs, Hc.
  - intros fuel data timeout.
    destruct (run (write fuel self data timeout) w) as [r w'] eqn:H.
    apply guarded_inv in H as [(_ & -> & ->) | (_ & r0 & w2 & H & -> & ->)];
      [done|].
    apply send_loop_spec in H as (_ & _ & _ & Hc & _).
    simpl. by rewrite Hs, Hc.
  - unfold is_connection_dropped. exec.
    destruct (closed (handle (sockets w) (sock self))) eqn:Hc; simpl; done.
Qed.

(** X4: [close] closes even when it fails.  With the write lock free,
    [close] comes back having closed the handle and released the lock,
    also when the platform reports an error, which surfaces as
    [CloseError]. *)
Theorem close_always_closes self w r w' :
  locks w !! write_lock self = Some false →
  run (close self) w = (r, w') →
  closed (handle (sockets w') (sock self)) = true ∧
  locks w' = locks w ∧
  match r with
  | Return _ => True
  | Raise e => surfaced CloseError CloseError e
  | Blocked | OutOfFuel => False
  end.
Proof.
  intros Hfree H.
  apply guarded_inv in H as [(Hheld & _) | (_ & r0 & w2 & H & -> & ->)];
    [done|].
  apply close_body_spec in H as (Hl & Hx & Hraw & Hc & _).
  rewrite Hx. unfold unlocked. simpl. rewrite Hl. simpl.
  split_and!; [done | by apply relock |].
  destruct r0 as [[]|e| |]; try done.
  by eapply (surfaced_remap_close (Raise e)).
Qed.

Lemma close_always_closes_witness :
  locks demo_faulty_world !! write_lock demo_stream = Some false ∧
  closed (handle (sockets demo_close_failed.2) (sock demo_stream)) = true ∧
  locks demo_close_failed.2 = locks demo_faulty_world ∧
  surfaced CloseError CloseError (Mapped CloseError (Raised OSError 5)).
Proof.
  split; [reflexivity |].
  apply (close_always_closes demo_stream demo_faulty_world
           (Raise (Mapped CloseError (Raised OSError 5)))
           demo_close_failed.2); reflexivity.
Defined.

(** X5: [close] can be repeated.  On a handle that is closed already,
    [close] with the write lock free returns, asks nothing of the
    platform but the one [close] call, and changes nothing but the log. *)
Theorem close_again self w :
  closed (handle (sockets w) (sock self)) = true →
  locks w !! write_lock self = Some false →
  run (close self) w =
    (Return tt,
     mk_world (sockets w) (locks w) (net w)
       (log w ++ [EvAcquire (write_lock self); EvClose (sock self);
                  EvRelease (write_lock self)])).
Proof.
  intros Hc Hfree. unfold close. rewrite with_lock_free by done.
  rewrite !run_map_exceptions. exec. rewrite Hc. simpl.
  unfold unlocked, locked, set_locks, emit. simpl.
  rewrite relock by done. by rewrite <- !app_assoc.
Qed.

Lemma close_again_witness :
  closed (handle (sockets demo_close_failed.2) (sock demo_stream)) = true ∧
  locks demo_close_failed.2 !! write_lock demo_stream = Some false ∧
  (run (close demo_stream) demo_close_failed.2).1 = Return tt.
Proof.
  split; [reflexivity |]. split; [reflexivity |].
  rewrite (close_again demo_stream demo_close_failed.2); reflexivity.
Defined.

(** ** What open builds *)

(** X6: a stream opened without an encryption context.  When
    [open_tcp_stream] returns with [ssl_context] absent, the stream holds
    a handle that did not exist before, connected to the decoded host and
    the port, without TLS, not closed, with nothing received or sent, and
    still in the mode of the connect deadline; its two locks are new and
    free; the platform saw one [socket], one [settimeout] and one
    [connect], and no handshake. *)
Theorem open_plain_stream hostname port timeout w s w' :
  run (open_tcp_stream hostname port None timeout) w = (Return s, w') →
  ∃ host,
    decode_ascii hostname = Some host ∧
    sock s = length (sockets w) ∧
    handle (sockets w') (sock s)
      = mk_socket false (dict_get timeout "connect") (Some (host, port))
          None [] false [] ∧
    read_lock s = length (locks w) ∧
    write_lock s = S (length (locks w)) ∧
    locks w' = locks w ++ [false; false] ∧
    log w' = log w ++
      [EvSocket;
       EvSetTimeout (length (sockets w)) (dict_get timeout "connect");
       EvConnect (length (sockets w)) host port
         (dict_get timeout "connect")].
Proof.
  intros H. apply open_tcp_stream_inv in H as (r0 & Hr & H).
  destruct H; simplify_eq/=.
  exists host.
  match goal with H : sockets _ = _ |- _ => rewrite H end.
  rewrite handle_app_new. by split_and!.
Qed.

Lemma open_plain_stream_witness :
  demo_open_plain = (Return (mk_stream 0 0 1), demo_open_plain.2) ∧
  ∃ host,
    decode_ascii demo_host = Some host ∧
    sock (mk_stream 0 0 1) = length (sockets empty_world) ∧
    handle (sockets demo_open_plain.2) (sock (mk_stream 0 0 1))
      = mk_socket false (dict_get demo_timeout "connect") (Some (host, 80))
          None [] false [] ∧
    read_lock (mk_stream 0 0 1) = length (locks empty_world) ∧
    write_lock (mk_stream 0 0 1) = S (length (locks empty_world)) ∧
    locks demo_open_plain.2 = locks empty_world ++ [false; false] ∧
    log demo_open_plain.2 = log empty_world ++
      [EvSocket;
       EvSetTimeout (length (sockets empty_world))
         (dict_get demo_timeout "connect");
       EvConnect (length (sockets empty_world)) host 80
         (dict_get demo_timeout "connect")].
Proof.
  split; [reflexivity |].
  apply (open_plain_stream demo_host 80 demo_timeout empty_world).
  reflexivity.
Defined.

(** How [open_tcp_stream] changes the tables of handles and locks: it adds
    at most one handle, and two locks exactly when it returns. *)
Lemma open_grows hostname port ssl_context timeout w r w' :
  run (open_tcp_stream hostname port ssl_context timeout) w = (r, w') →
  (sockets w' = sockets w ∨ ∃ st, sockets w' = sockets w ++ [st]) ∧
  match r with
  | Return s =>
      s = mk_stream (length (sockets w)) (length (locks w))
            (S (length (locks w))) ∧
      (∃ st, sockets w' = sockets w ++ [st]) ∧
      locks w' = locks w ++ [false; false]
  | _ => locks w' = locks w
  end.
Proof.
  intros H. apply open_tcp_stream_inv in H as (r0 & -> & H).
  destruct H; simpl; split; eauto.
Qed.

(** X7: [open_tcp_stream] leaves what exists alone.  Whatever its
    outcome, every handle and every lock that existed before the call is
    unchanged after it, and locks are added only when it returns a
    stream. *)
Theorem open_leaves_others hostname port ssl_context timeout w r w' :
  run (open_tcp_stream hostname port ssl_context timeout) w = (r, w') →
  (∀ fd, (fd < length (sockets w))%nat →
         sockets w' !! fd = sockets w !! fd) ∧
  (∀ l, (l < length (locks w))%nat → locks w' !! l = locks w !! l) ∧
  ((∀ s, r ≠ Return s) → locks w' = locks w).
Proof.
  intros H. apply open_grows in H as (Hs & Hl). split_and!.
  - intros fd Hfd. destruct Hs as [-> | [st ->]]; [done|].
    by rewrite lookup_app_l.
  - intros l Hlt. destruct r as [s|e| |]; try by rewrite Hl.
    destruct Hl as (_ & _ & ->). by rewrite lookup_app_l.
  - intros Hr. destruct r as [s|e| |]; try done. by destruct (Hr s).
Qed.

Lemma open_leaves_others_witness :
  (∀ fd, (fd < length (sockets demo_faulty_world))%nat →
         sockets demo_open_failed.2 !! fd = sockets demo_faulty_world !! fd) ∧
  (∀ l, (l < length (locks demo_faulty_world))%nat →
        locks demo_open_failed.2 !! l = locks demo_faulty_world !! l) ∧
  ((∀ s, demo_open_failed.1 ≠ Return s) →
   locks demo_open_failed.2 = locks demo_faulty_world).
Proof.
  apply (open_leaves_others demo_host 80 None demo_timeout demo_faulty_world
           demo_open_failed.1 demo_open_failed.2).
  reflexivity.
Defined.

(** X8: two streams share nothing.  Two calls of [open_tcp_stream] that
    return, one after the other, give streams on different handles with
    four different locks, and the second call leaves the handle of the
    first stream as it was. *)
Theorem opens_are_disjoint
  hostname1 port1 ssl_context1 timeout1 hostname2 port2 ssl_context2 timeout2
  w s1 w1 s2 w2 :
  run (open_tcp_stream hostname1 port1 ssl_context1 timeout1) w
    = (Return s1, w1) →
  run (open_tcp_stream hostname2 port2 ssl_context2 timeout2) w1
    = (Return s2, w2) →
  sock s1 ≠ sock s2 ∧
  NoDup [read_lock s1; write_lock s1; read_lock s2; write_lock s2] ∧
  handle (sockets w2) (sock s1) = handle (sockets w1) (sock s1).
Proof.
  intros H1 H2.
  apply open_grows in H1 as (_ & -> & [st1 Hs1] & Hl1).
  apply open_grows in H2 as (_ & -> & [st2 Hs2] & Hl2).
  rewrite Hs1, Hl1 in *. rewrite Hs2. simpl.
  rewrite !length_app. simpl. split_and!.
  - lia.
  - repeat (apply NoDup_cons; split;
              [intros Hin;
               repeat (apply elem_of_cons in Hin as [Hin | Hin]; [lia |]);
               by apply elem_of_nil in Hin |]).
    apply NoDup_nil_2.
  - unfold handle. rewrite (lookup_app_l _ [st2]); [done|].
    rewrite length_app. simpl. lia.
Qed.

Lemma opens_are_disjoint_witness :
  demo_open_plain = (Return (mk_stream 0 0 1), demo_open_plain.2) ∧
  demo_open_second = (Return (mk_stream 1 2 3), demo_open_second.2) ∧
  sock (mk_stream 0 0 1) ≠ sock (mk_stream 1 2 3) ∧
  NoDup [read_lock (mk_stream 0 0 1); write_lock (mk_stream 0 0 1);
         read_lock (mk_stream 1 2 3); write_lock (mk_stream 1 2 3)] ∧
  handle (sockets demo_open_second.2) (sock (mk_stream 0 0 1))
    = handle (sockets demo_open_plain.2) (sock (mk_stream 0 0 1)).
Proof.
  split; [by vm_compute |]. split; [by vm_compute |].
  apply (opens_are_disjoint demo_host 80 None demo_timeout
           demo_host 443 (Some 7%nat) demo_timeout
           empty_world (mk_stream 0 0 1) demo_open_plain.2
           (mk_stream 1 2 3) demo_open_second.2); by vm_compute.
Defined.

(** ** Streams do not disturb each other *)

Lemma same_elsewhere_refl {A} i (l : list A) : same_elsewhere i l l.
Proof. by split. Qed.

Lemma same_elsewhere_trans {A} i (l1 l2 l3 : list A) :
  same_elsewhere i l1 l2 → same_elsewhere i l2 l3 → same_elsewhere i l1 l3.
Proof.
  intros [Hlen1 H1] [Hlen2 H2]. split; [congruence|].
  intros j Hj. by rewrite H2, H1.
Qed.

Lemma same_elsewhere_insert {A} i (l : list A) x :
  same_elsewhere i l (<[i := x]> l).
Proof.
  split; [apply length_insert|]. intros j Hj.
  by apply list_lookup_insert_ne.
Qed.

Lemma confined_refl fd l w : confined fd l w w.
Proof. split; apply same_elsewhere_refl. Qed.

Lemma confined_trans fd l w1 w2 w3 :
  confined fd l w1 w2 → confined fd l w2 w3 → confined fd l w1 w3.
Proof.
  intros [Hs1 Hl1] [Hs2 Hl2]. split; by eapply same_elsewhere_trans.
Qed.

Lemma every_call_and_then R {A B} (p : prog A) (f : A → prog B) :
  every_call R p → (∀ a, every_call R (f a)) →
  every_call R (and_then p f).
Proof. intros Hp Hf. induction Hp; simpl; try constructor; auto. Qed.

Lemma every_call_map_exceptions R {A} exc_map (p : prog A) :
  every_call R p → every_call R (map_exceptions exc_map p).
Proof. induction 1; simpl; constructor; auto. Qed.

Lemma every_call_finally R {A} (p : prog A) (cleanup : M unit) :
  respects R cleanup → every_call R p → every_call R (finally p cleanup).
Proof.
  intros Hc. induction 1; simpl; repeat constructor; auto.
Qed.

Lemma every_call_with_lock R {A} l (p : prog A) :
  respects R (threading.acquire l) → respects R (threading.release l) →
  every_call R p → every_call R (with_lock l p).
Proof.
  intros Ha Hr Hp. unfold with_lock, call. simpl.
  constructor; [done | | constructor].
  intros _. by apply every_call_finally.
Qed.

(** A run stays in a relation that is kept by every call and is reflexive
    and transitive. *)
Lemma run_every_call (R : world → world → Prop) {A} (p : prog A) w r w' :
  (∀ w, R w w) → (∀ w1 w2 w3, R w1 w2 → R w2 w3 → R w1 w3) →
  every_call R p → run p w = (r, w') → R w w'.
Proof.
  intros Hrefl Htrans Hp. revert w.
  induction Hp as [a|e| |X c k h Hc Hk IHk Hh IHh]; intros w; simpl.
  - by intros [= <- <-].
  - by intros [= <- <-].
  - by intros [= <- <-].
  - destruct (c w) as [[x|e| |] w1] eqn:Hcw;
      pose proof (Hc _ _ _ Hcw) as Hstep; intros Hrun.
    + eapply Htrans; [done | by eapply IHk].
    + eapply Htrans; [done | by eapply IHh].
    + by injection Hrun as <- <-.
    + by injection Hrun as <- <-.
Qed.

Ltac confined_call :=
  intros w r w' H; exec; repeat (case_match; simplify_eq/=);
  split; simpl;
  first [apply same_elsewhere_refl | apply same_elsewhere_insert
        | rewrite list_insert_insert_eq; apply same_elsewhere_insert].

Lemma settimeout_confined fd l t :
  respects (confined fd l) (socket.settimeout fd t).
Proof. confined_call. Qed.

Lemma recv_confined fd l n : respects (confined fd l) (socket.recv fd n).
Proof. confined_call. Qed.

Lemma send_confined fd l data :
  respects (confined fd l) (socket.send fd data).
Proof. confined_call. Qed.

Lemma close_confined fd l : respects (confined fd l) (socket.close fd).
Proof. confined_call. Qed.

Lemma acquire_confined fd l : respects (confined fd l) (threading.acquire l).
Proof.
  intros w r w'. unfold threading.acquire, bind, tell. simpl.
  destruct (locks w !! l) as [[]|]; intros [= <- <-]; split; simpl;
    first [apply same_elsewhere_refl | apply same_elsewhere_insert].
Qed.

Lemma release_confined fd l : respects (confined fd l) (threading.release l).
Proof.
  intros w r w'. unfold threading.release, bind, tell. simpl.
  intros [= <- <-]. split; simpl;
    first [apply same_elsewhere_refl | apply same_elsewhere_insert].
Qed.

Lemma send_loop_confined fuel fd l t data :
  every_call (confined fd l) (send_loop fuel fd t data).
Proof.
  revert data. induction fuel as [|fuel IH]; intros [|b data]; simpl;
    try constructor.
  - apply settimeout_confined.
  - intros _. constructor; [apply send_confined | auto | constructor].
  - constructor.
Qed.

(** X9: a method works on its own stream only.  Whatever the outcome of
    [read], [write] or [close] on a stream, every other handle and every
    lock other than the one the method takes are as they were, and no
    handle or lock was added or removed. *)
Theorem methods_are_confined self :
  (∀ n timeout w r w',
     run (read self n timeout) w = (r, w') →
     confined (sock self) (read_lock self) w w') ∧
  (∀ fuel data timeout w r w',
     run (write fuel self data timeout) w = (r, w') →
     confined (sock self) (write_lock self) w w') ∧
  (∀ w r w',
     run (close self) w = (r, w') →
     confined (sock self) (write_lock self) w w').
Proof.
  split_and!.
  - intros n timeout w r w'.
    apply run_every_call; [apply confined_refl | apply confined_trans |].
    apply every_call_with_lock;
      [apply acquire_confined | apply release_confined |].
    apply every_call_map_exceptions, every_call_and_then.
    + constructor; [apply settimeout_confined | constructor..].
    + intros _. constructor; [apply recv_confined | constructor..].
  - intros fuel data timeout w r w'.
    apply run_every_call; [apply confined_refl | apply confined_trans |].
    apply every_call_with_lock;
      [apply acquire_confined | apply release_confined |].
    apply every_call_map_exceptions, send_loop_confined.
  - intros w r w'.
    apply run_every_call; [apply confined_refl | apply confined_trans |].
    apply every_call_with_lock;
      [apply acquire_confined | apply release_confined |].
    apply every_call_map_exceptions.
    constructor; [apply close_confined | constructor..].
Qed.

Lemma methods_are_confined_witness :
  confined 0 1 demo_open_second.2 demo_two_streams_written.2 ∧
  handle (sockets demo_two_streams_written.2) 1
    = handle (sockets demo_open_second.2) 1.
Proof.
  destruct (methods_are_confined (mk_stream 0 0 1)) as (_ & Hw & _).
  split; [| by vm_compute].
  apply (Hw 8%nat demo_data demo_timeout demo_open_second.2
           demo_two_streams_written.1 demo_two_streams_written.2).
  by vm_compute.
Defined.

(** ** Arguments the platform refuses *)

(** The body of [read] when it returns. *)
Lemma read_body_returns fd t n w bs w' :
  run (call (socket.settimeout fd t);; call (socket.recv fd n)) w
    = (Return bs, w') →
  socket.valid_timeout t = true ∧
  closed (handle (sockets w) fd) = false ∧
  0 ≤ n ∧
  (length bs ≤ Z.to_nat n)%nat ∧
  sock_timeout (handle (sockets w') fd) = t ∧
  outbox (handle (sockets w') fd) = outbox (handle (sockets w) fd).
Proof.
  exec. intros H.
  destruct (socket.valid_timeout t) eqn:Hv; simpl in *; [|done].
  destruct (closed (handle (sockets w) fd)) eqn:Hc; simpl in *; [done|].
  hsimp.
  repeat case_match; simplify_eq/=; hsimp;
    split_and!; try done; try lia; rewrite ?length_take; lia.
Qed.

(** X10: what [read] returns.  When [read] returns, the handle was open
    and the deadline one the platform accepts, [n] is not negative, at
    most [n] bytes are returned, the handle is left in the mode of the
    read deadline, and nothing was sent. *)
Theorem read_returns_at_most self n timeout w bs w' :
  run (read self n timeout) w = (Return bs, w') →
  closed (handle (sockets w) (sock self)) = false ∧
  socket.valid_timeout (dict_get timeout "read") = true ∧
  0 ≤ n ∧
  Z.of_nat (length bs) ≤ n ∧
  sock_timeout (handle (sockets w') (sock self)) = dict_get timeout "read" ∧
  outbox (handle (sockets w') (sock self))
    = outbox (handle (sockets w) (sock self)).
Proof.
  intros H.
  apply guarded_inv in H as [(_ & [=] & _) | (_ & r0 & w2 & H & Hr & ->)].
  destruct r0 as [bs'|e| |]; try done. injection Hr as ->.
  apply read_body_returns in H as (Hv & Hc & Hn & Hlen & Ht & Hout).
  simpl in *. split_and!; try done. lia.
Qed.

Lemma read_returns_at_most_witness :
  demo_read_pending = (Return [x68; x69], demo_read_pending.2) ∧
  closed (handle (sockets demo_pending_world) (sock demo_stream)) = false ∧
  socket.valid_timeout (dict_get demo_timeout "read") = true ∧
  0 ≤ 2 ∧
  Z.of_nat (length [x68; x69]) ≤ 2 ∧
  sock_timeout (handle (sockets demo_read_pending.2) (sock demo_stream))
    = dict_get demo_timeout "read" ∧
  outbox (handle (sockets demo_read_pending.2) (sock demo_stream))
    = outbox (handle (sockets demo_pending_world) (sock demo_stream)).
Proof.
  split; [by vm_compute |].
  apply (read_returns_at_most demo_stream 2 demo_timeout demo_pending_world).
  by vm_compute.
Defined.



(** ** Writers sharing a stream *)

Lemma steps_trans s1 s2 s3 : steps s1 s2 → steps s2 s3 → steps s1 s3.
Proof.
  intros H12 H23. induction H23 as [|s2 s3 s4 _ IH Hstep]; [done|].
  eapply steps_step; [by apply IH | done].
Qed.

(** Every schedule is an interleaving. *)
Lemma schedule_steps order s : steps s (schedule order s).
Proof.
  revert s. induction order as [|i order IH]; intros [w ts]; simpl;
    [constructor|].
  destruct (ts !! i) as [t|] eqn:Hi; simpl; [|apply IH].
  destruct (advance t w) as [[t' w']|] eqn:Hadv; [|apply IH].
  eapply steps_trans; [|apply IH].
  eapply steps_step; [apply steps_refl|]. by econstructor.
Qed.

Lemma settimeout_outbox fd t w r w' :
  socket.settimeout fd t w = (r, w') →
  locks w' = locks w ∧
  outbox (handle (sockets w') fd) = outbox (handle (sockets w) fd).
Proof.
  exec. intros H. repeat (case_match; simplify_eq/=); hsimp; done.
Qed.

Lemma send_outbox fd data w r w' :
  socket.send fd data w = (r, w') →
  locks w' = locks w ∧
  outbox (handle (sockets w') fd)
    = outbox (handle (sockets w) fd)
        ++ match r with Return n => take n data | _ => [] end.
Proof.
  exec. intros H.
  repeat (case_match; simplify_eq/=); hsimp; rewrite ?app_nil_r;
    rewrite ?take_length_take, ?firstn_all; done.
Qed.

Lemma pending_send_loop fuel fd t data :
  pending fd data (send_loop fuel fd t data).
Proof.
  revert data. induction fuel as [|fuel IH]; intros [|b data]; simpl;
    try constructor.
  apply (pending_call _ _ _ _ _ _ (λ _, b :: data)).
  - intros w x w' H. apply settimeout_outbox in H as [Hl Ho].
    split; [done|]. exists []. by rewrite app_nil_r.
  - intros _. apply (pending_call _ _ _ _ _ _ (λ n, drop n (b :: data))).
    + intros w n w' H. apply send_outbox in H as [Hl Ho].
      split; [done|]. exists (take n (b :: data)). by rewrite take_drop.
    + intros n. apply IH.
    + intros w e w' H. apply send_outbox in H as [Hl Ho].
      by rewrite app_nil_r in Ho.
    + constructor.
  - intros w e w' H. by apply settimeout_outbox in H.
  - constructor.
Qed.

(** The other writers when one takes the lock. *)
Lemma writer_behind self w w' hist i k data t :
  locks w !! write_lock self = Some false → k ≠ i →
  writer self w hist k data t →
  writer self w' (hist ++ [(i, [])]) k data t.
Proof.
  intros Hfree Hne [m body Hp Hnew|m body h0 sent rest -> Hd Hp Hheld
                   |Hin|e sent Hin].
  - constructor; [done|]. rewrite fmap_app. simpl.
    intros [?|?%list_elem_of_singleton]%elem_of_app; done.
  - congruence.
  - constructor. apply elem_of_app. by left.
  - econstructor. apply elem_of_app. by left.
Qed.

(** The other writers when the one that holds the lock goes on. *)
Lemma writer_beside self w w' hist0 i sent sent' k data t :
  k ≠ i →
  writer self w (hist0 ++ [(i, sent)]) k data t →
  writer self w' (hist0 ++ [(i, sent')]) k data t.
Proof.
  intros Hne Hw.
  remember (hist0 ++ [(i, sent)]) as hist eqn:Hhist.
  destruct Hw as [m body Hp Hnew|m body h0 s rest Heq Hd Hp Hheld
                 |Hin|e s Hin]; subst hist.
  - constructor; [done|]. rewrite fmap_app in *. done.
  - apply app_inj_tail in Heq as [_ [=]]. done.
  - constructor. apply elem_of_app in Hin as [Hin|Hin%list_elem_of_singleton].
    + apply elem_of_app. by left.
    + by simplify_eq.
  - econstructor.
    apply elem_of_app in Hin as [Hin|Hin%list_elem_of_singleton].
    + apply elem_of_app. by left.
    + by simplify_eq.
Qed.

Lemma serial_step self jobs before s s' :
  serial self jobs before s → step s s' → serial self jobs before s'.
Proof.
  intros (hist & Hnd & Hout & Hpre & Hts) Hstep.
  inversion Hstep as [i t t' w w' ts Hi Hadv]; subst. simpl in *.
  destruct (Hts i t Hi) as (j & Hj & Hw).
  assert (i < length ts)%nat as Hlen by (by eapply lookup_lt_Some).
  destruct Hw as [m body Hp Hnew|m body h0 sent rest -> Hd Hp Hheld
                 |Hin|e sent Hin].
  - apply advance_waiting in Hadv as (Hfree & -> & ->).
    assert (write_lock self < length (locks w))%nat as Hl
      by (by eapply lookup_lt_Some).
    exists (hist ++ [(i, [])]). split_and!.
    + rewrite fmap_app. simpl. apply NoDup_app.
      split_and!; [done | | apply NoDup_singleton].
      by intros k Hk ->%list_elem_of_singleton.
    + simpl. rewrite fmap_app, concat_app. simpl. by rewrite app_nil_r.
    + intros k s [Hin|Hin%list_elem_of_singleton]%elem_of_app; [eauto|].
      simplify_eq. exists j. split; [done | apply prefix_nil].
    + simpl. intros k t Hk. destruct (decide (k = i)) as [-> | Hne].
      * rewrite list_lookup_insert_eq in Hk by done. simplify_eq.
        exists j. split; [done|].
        eapply (writer_sending _ _ _ _ _ _ _ hist [] j.1.2);
          [done | done | done |].
        simpl. by rewrite list_lookup_insert_eq.
      * rewrite list_lookup_insert_ne in Hk by done.
        destruct (Hts k t Hk) as (j' & Hj' & Hw'). exists j'.
        split; [done|]. by eapply writer_behind.
  - destruct Hp as [|rest e|rest|X c k h rest left Hk Hpk Hh Hph];
      simpl in Hadv.
    + unfold threading.release, bind, tell in Hadv. simpl in Hadv.
      injection Hadv as <- <-. rewrite app_nil_r in Hd.
      exists (h0 ++ [(i, sent)]). split_and!; [done..|].
      simpl. intros k t Hk. destruct (decide (k = i)) as [-> | Hne].
      * rewrite list_lookup_insert_eq in Hk by done. injection Hk as <-.
        exists j. split; [done|]. rewrite Hd. constructor.
        apply elem_of_app. right. by apply list_elem_of_singleton.
      * rewrite list_lookup_insert_ne in Hk by done.
        destruct (Hts k t Hk) as (j' & Hj' & Hw'). exists j'.
        split; [done|]. by eapply writer_beside.
    + unfold threading.release, bind, tell in Hadv. simpl in Hadv.
      injection Hadv as <- <-.
      exists (h0 ++ [(i, sent)]). split_and!; [done..|].
      simpl. intros k t Hk. destruct (decide (k = i)) as [-> | Hne].
      * rewrite list_lookup_insert_eq in Hk by done. simplify_eq.
        exists j. split; [done|]. econstructor.
        apply elem_of_app. right. by apply list_elem_of_singleton.
      * rewrite list_lookup_insert_ne in Hk by done.
        destruct (Hts k t Hk) as (j' & Hj' & Hw'). exists j'.
        split; [done|]. by eapply writer_beside.
    + done.
    + destruct (c w) as [[x|e| |] w1] eqn:Hc; simplify_eq.
      * destruct (Hk _ _ _ Hc) as (Hl & delta & -> & Ho).
        exists (h0 ++ [(i, sent ++ delta)]). split_and!.
        -- rewrite fmap_app in *. done.
        -- simpl. rewrite Ho, Hout. rewrite !fmap_app, !concat_app. simpl.
           by rewrite !app_nil_r, !app_assoc.
        -- intros k' s [Hin|Hin%list_elem_of_singleton]%elem_of_app.
           ++ apply Hpre, elem_of_app. by left.
           ++ simplify_eq. exists j. split; [done|].
              exists (left x). rewrite <- app_assoc. exact Hd.
        -- simpl. intros k' t Hk'. destruct (decide (k' = i)) as [-> | Hne].
           ++ rewrite list_lookup_insert_eq in Hk' by done. simplify_eq.
              exists j. split; [done|].
              eapply (writer_sending _ _ _ _ _ _ _ h0 (sent ++ delta) (left x));
                [done | by rewrite <- app_assoc | done | by rewrite Hl].
           ++ rewrite list_lookup_insert_ne in Hk' by done.
              destruct (Hts k' t Hk') as (j' & Hj' & Hw'). exists j'.
              split; [done|]. by eapply writer_beside.
      * destruct (Hh _ _ _ Hc) as (Hl & Ho).
        exists (h0 ++ [(i, sent)]). split_and!;
          [done | simpl; by rewrite Ho | done |].
        simpl. intros k' t Hk'. destruct (decide (k' = i)) as [-> | Hne].
        -- rewrite list_lookup_insert_eq in Hk' by done. simplify_eq.
           exists j. split; [done|].
           eapply (writer_sending _ _ _ _ _ _ _ h0 sent rest);
             [done | done | done | by rewrite Hl].
        -- rewrite list_lookup_insert_ne in Hk' by done.
           destruct (Hts k' t Hk') as (j' & Hj' & Hw'). exists j'.
           split; [done|]. by eapply writer_beside.
  - done.
  - done.
Qed.

Lemma serial_steps self jobs before s s' :
  steps s s' → serial self jobs before s → serial self jobs before s'.
Proof.
  induction 1 as [s|s1 s2 s3 _ IH Hstep]; [done|].
  intros H. eapply serial_step; [by apply IH | done].
Qed.

Lemma writers_serial self jobs w :
  serial self jobs (outbox (handle (sockets w) (sock self)))
    (w, writers self jobs).
Proof.
  exists []. split_and!.
  - constructor.
  - simpl. by rewrite app_nil_r.
  - intros i sent Hin. by apply elem_of_nil in Hin.
  - simpl. intros i t. unfold writers. rewrite list_lookup_fmap.
    destruct (jobs !! i) as [j|]; [|done]. intros [= <-].
    exists j. split; [done|]. constructor.
    + apply pending_send_loop.
    + simpl. apply not_elem_of_nil.
Qed.

(** X12: writes from several threads reach the transport whole.  However
    the threads of a pool of writers on one stream are interleaved, what
    the transport has accepted on the stream is what it had before,
    followed by one block for each writer that has taken the lock, in the
    order in which they took it: each block is a prefix of its writer's
    data, and all of the data once that writer has returned.  No byte of
    one write ever lands inside another. *)
Theorem concurrent_writes_are_serial self jobs w w' ts' :
  steps (w, writers self jobs) (w', ts') →
  ∃ blocks : list (nat * bytes),
    NoDup blocks.*1 ∧
    outbox (handle (sockets w') (sock self))
      = outbox (handle (sockets w) (sock self)) ++ concat blocks.*2 ∧
    (∀ i sent, (i, sent) ∈ blocks →
       ∃ j, jobs !! i = Some j ∧ sent `prefix_of` j.1.2) ∧
    (∀ i j t, jobs !! i = Some j → ts' !! i = Some t →
       returned t = true → (i, j.1.2) ∈ blocks).
Proof.
  intros Hsteps.
  pose proof (serial_steps self jobs _ _ _ Hsteps (writers_serial self jobs w))
    as (hist & Hnd & Hout & Hpre & Hts).
  exists hist. split_and!; [done..|].
  intros i j t Hj Hi Hret. simpl in *.
  destruct (Hts i t Hi) as (j' & Hj' & Hw). simplify_eq.
  destruct Hw as [m body Hp Hnew|m body h0 sent rest -> Hd Hp Hheld
                 |Hin|e sent Hin]; try done.
  by destruct body.
Qed.

Lemma concurrent_writes_are_serial_witness :
  returned <$> demo_race.2 = [true; true] ∧
  outbox (handle (sockets demo_race.1) (sock demo_stream))
    = [x01; x02; x03; x04; x05] ∧
  ∃ blocks : list (nat * bytes),
    NoDup blocks.*1 ∧
    outbox (handle (sockets demo_race.1) (sock demo_stream))
      = outbox (handle (sockets demo_chunked_world) (sock demo_stream))
          ++ concat blocks.*2 ∧
    (∀ i sent, (i, sent) ∈ blocks →
       ∃ j, demo_jobs !! i = Some j ∧ sent `prefix_of` j.1.2) ∧
    (∀ i j t, demo_jobs !! i = Some j → demo_race.2 !! i = Some t →
       returned t = true → (i, j.1.2) ∈ blocks).
Proof.
  split; [by vm_compute |]. split; [by vm_compute |].
  apply (concurrent_writes_are_serial demo_stream demo_jobs
           demo_chunked_world demo_race.1 demo_race.2).
  rewrite <- surjective_pairing. apply schedule_steps.
Defined.

(** ** Arguments of a successful open *)

Lemma decode_ascii_encode b s :
  decode_ascii b = Some s →
  String.list_byte_of_string s = b ∧ Forall (λ c, (Byte.to_N c < 128)%N) b.
Proof.
  revert s. induction b as [|c b IH]; intros s; simpl.
  - intros [= <-]. by split.
  - destruct (Byte.to_N c <? 128)%N eqn:Hc; [|done].
    destruct (decode_ascii b) as [s'|]; [|done]. simpl. intros [= <-].
    destruct (IH s' eq_refl) as [Henc Hall].
    unfold String.list_byte_of_string in *. simpl.
    rewrite byte_of_ascii_of_byte, Henc. split; [done|].
    constructor; [by apply N.ltb_lt | done].
Qed.

Lemma open_returns_port hostname port ssl_context timeout w s w' :
  run (open_tcp_stream hostname port ssl_context timeout) w = (Return s, w') →
  0 ≤ port ≤ 65535.
Proof.
  unfold open_tcp_stream. intros H.
  apply map_exceptions_inv in H as (r0 & H & Hr).
  destruct r0 as [s0|e| |]; try done. injection Hr as ->.
  revert H. generalize (dict_get timeout "connect"). intros t H.
  exec. newsimp.
  destruct ((port <? 0) || (65535 <? port)) eqn:Hport.
  - destruct (socket.valid_timeout t) eqn:Hv; simpl in *;
      repeat (case_match; simplify_eq/=; newsimp).
  - apply orb_false_elim in Hport as [?%Z.ltb_ge ?%Z.ltb_ge]. lia.
Qed.

(** X13: what a successful open says about its arguments.  When
    [open_tcp_stream] returns, every byte of [hostname] is ASCII, the port
    is in 0..65535 and the connect deadline is one the platform accepts;
    the handle of the stream is connected to the port and to the host
    whose characters are the bytes of [hostname], and when a context was
    given the handshake named that same host. *)
Theorem open_requires_valid_arguments
  hostname port ssl_context timeout w s w' :
  run (open_tcp_stream hostname port ssl_context timeout) w = (Return s, w') →
  Forall (λ c, (Byte.to_N c < 128)%N) hostname ∧
  0 ≤ port ≤ 65535 ∧
  socket.valid_timeout (dict_get timeout "connect") = true ∧
  ∃ host,
    String.list_byte_of_string host = hostname ∧
    peer (handle (sockets w') (sock s)) = Some (host, port) ∧
    tls (handle (sockets w') (sock s)) = (λ ctx, (ctx, host)) <$> ssl_context.
Proof.
  intros H. pose proof (open_returns_port _ _ _ _ _ _ _ H) as [Hlo Hhi].
  apply open_tcp_stream_inv in H as (r0 & Hr & H).
  destruct H as [f w' Hs Hlog Hsock Hl
                |w' Hs Hv Hlog Hsock Hl
                |w' Hs Hv Hd Hlog Hsock Hl
                |host c z w' Hs Hv Hd Hlog Hsock Hl
                |host ctx f w' Hs Hv Hd Hctx Hlog Hsock Hl
                |host w' Hs Hv Hd Hctx Hlog Hsock Hl
                |host ctx w' Hs Hv Hd Hctx Hlog Hsock Hl];
    simplify_eq/=; try (by repeat case_match).
  - apply decode_ascii_encode in Hd as [Henc Hall].
    split_and!; [done..|]. exists host.
    rewrite Hsock, handle_app_new. by split_and!.
  - apply decode_ascii_encode in Hd as [Henc Hall].
    split_and!; [done..|]. exists host.
    rewrite Hsock, handle_app_new. by split_and!.
Qed.

Lemma open_requires_valid_arguments_witness :
  demo_open_plain.1 = Return (mk_stream 0 0 1) ∧
  Forall (λ c, (Byte.to_N c < 128)%N) demo_host ∧
  0 ≤ 80 ≤ 65535 ∧
  socket.valid_timeout (dict_get demo_timeout "connect") = true ∧
  ∃ host,
    String.list_byte_of_string host = demo_host ∧
    peer (handle (sockets demo_open_plain.2) 0) = Some (host, 80) ∧
    tls (handle (sockets demo_open_plain.2) 0) = None.
Proof.
  split; [by vm_compute |].
  apply (open_requires_valid_arguments demo_host 80 None demo_timeout
           empty_world (mk_stream 0 0 1) demo_open_plain.2).
  by vm_compute.
Defined.

(** ** The probe and the next read *)





(** ** A stream just opened *)




